(** * History compaction of pxt.workspace: diffScriptText, applyDiff, collapseHistory

    A shallow embedding of the three functions of [namespace pxt.workspace]
    that maintain the backward-patch edit history of a project, and the
    properties of them that the specification states.

    Conventions of the embedding.
    - A JavaScript [number] holding a timestamp or an interval is an integer
      ([Z]); indices into arrays are [nat].
    - A [ScriptText] (a JavaScript object used as a map from file names to
      file contents) is an association list in property order: [Object.keys]
      enumerates string keys in insertion order, and that order decides the
      order of the [changes] of a computed entry.  A well-formed object has
      no repeated key ([wellFormed]).
    - File names are not names of properties of [Object.prototype], so that
      reading a file the object lacks gives [undefined].
    - The injected callbacks [diff] and [patch] are total functions; [patch]
      can be handed [undefined] for its text, which is [None].
    - A run of JavaScript code that can throw has an [outcome]. *)

From Stdlib Require Import List String Ascii ZArith Bool Arith Lia Permutation.
Import ListNotations.

Local Open Scope Z_scope.

(** ** Outcomes of a run *)

(** The only exception these functions raise themselves: reading the
    property [property] of [undefined]. *)
Inductive JsError : Type :=
| TypeError (property : string).

(** [Returned a]: the call returns [a].  [Thrown e]: it throws [e].
    [UndefinedSlot]: the run would store the result of an out-of-range
    array read, [undefined], in the array it builds; the model has no such
    entry and stops there ([collapseHistory_no_undefined_slot] shows that
    no run gets there). *)
Inductive outcome (A : Type) : Type :=
| Returned (a : A)
| Thrown (e : JsError)
| UndefinedSlot.

Arguments Returned {A} a.
Arguments Thrown {A} e.
Arguments UndefinedSlot {A}.

Definition bind {A B : Type} (c : outcome A) (k : A -> outcome B) : outcome B :=
  match c with
  | Returned a => k a
  | Thrown e => Thrown e
  | UndefinedSlot => UndefinedSlot
  end.

Notation "x <- c ;; k" := (bind c (fun x => k))
  (at level 61, c at next level, right associativity).

(** ** Snapshots: [ScriptText = pxt.Map<string>] *)

Definition ScriptText : Type := list (string * string).

(** [text[file]]; [None] is [undefined]. *)
Fixpoint get (text : ScriptText) (file : string) : option string :=
  match text with
  | [] => None
  | (k, v) :: rest => if String.eqb k file then Some v else get rest file
  end.

(** [Object.keys(text)]. *)
Definition keys (text : ScriptText) : list string := map fst text.

(** [text[file] = value]: an existing property keeps its place, a new one
    goes last. *)
Fixpoint set (text : ScriptText) (file value : string) : ScriptText :=
  match text with
  | [] => [(file, value)]
  | (k, v) :: rest =>
      if String.eqb k file then (k, value) :: rest
      else (k, v) :: set rest file value
  end.

(** [delete text[file]]. *)
Definition delete (text : ScriptText) (file : string) : ScriptText :=
  filter (fun kv => negb (String.eqb (fst kv) file)) text.

(** No key is repeated, as in every JavaScript object. *)
Definition wellFormed (text : ScriptText) : Prop := NoDup (keys text).

(** ** History entries *)

Section Entries.

(** The payload of an edit, [patch: any]. *)
Context {Patch : Type}.

(** [FileChange = FileAddedChange | FileRemovedChange | FileEditedChange],
    tagged by [type]. *)
Inductive FileChange : Type :=
| added (filename value : string)
| removed (filename value : string)
| edited (filename : string) (patch : Patch).

Definition filename (change : FileChange) : string :=
  match change with
  | added f _ | removed f _ | edited f _ => f
  end.

Record HistoryEntry : Type := {
  timestamp : Z;
  editorVersion : string;
  changes : list FileChange
}.

End Entries.

Arguments FileChange Patch : clear implicits.
Arguments HistoryEntry Patch : clear implicits.

(** What the code reads from its surroundings: [Date.now()] and
    [pxt.appTarget?.versions?.target]. *)
Record Ambient : Type := {
  dateNow : Z;
  targetVersion : string
}.

(** ** Tracked files *)

(** [s.endsWith(suffix)]. *)
Definition endsWith (s suffix : string) : bool :=
  (String.length suffix <=? String.length s)%nat
  && String.eqb
       (substring (String.length s - String.length suffix)
                  (String.length suffix) s)
       suffix.

(** The test both loops of [diffScriptText] make on a file name (the code
    writes it out twice, negated, before [continue]). *)
Definition tracked (file : string) : bool :=
  endsWith file ".ts" || endsWith file ".jres" || endsWith file ".py"
  || endsWith file ".blocks" || String.eqb file "pxt.json".

(** ** diffScriptText *)

Section Differ.

Context {Patch : Type}.

(** Body of the first loop, for the property [file] of [oldVersion] whose
    value is [oldValue]: the loop runs over [Object.keys(oldVersion)] and
    reads [oldVersion[file]], which for an object is the value stored
    under the key. *)
Definition removedOrEdited (newVersion : ScriptText)
    (diff : string -> string -> Patch) (kv : string * string)
  : list (FileChange Patch) :=
  let (file, oldValue) := kv in
  if negb (tracked file) then []
  else match get newVersion file with
       | None => [removed file oldValue]
       | Some newValue =>
           if negb (String.eqb oldValue newValue)
           then [edited file (diff newValue oldValue)]
           else []
       end.

(** Body of the second loop, for the property [file] of [newVersion]. *)
Definition addedIn (oldVersion : ScriptText) (kv : string * string)
  : list (FileChange Patch) :=
  let (file, newValue) := kv in
  if negb (tracked file) then []
  else match get oldVersion file with
       | None => [added file newValue]
       | Some _ => []
       end.

(** The array [changes] when both loops are done. *)
Definition diffChanges (oldVersion newVersion : ScriptText)
    (diff : string -> string -> Patch) : list (FileChange Patch) :=
  flat_map (removedOrEdited newVersion diff) oldVersion
  ++ flat_map (addedIn oldVersion) newVersion.

(** [None] is the [undefined] returned when nothing changed. *)
Definition diffScriptText (env : Ambient) (oldVersion newVersion : ScriptText)
    (diff : string -> string -> Patch) : option (HistoryEntry Patch) :=
  match diffChanges oldVersion newVersion diff with
  | [] => None
  | changes =>
      Some {| timestamp := dateNow env;
              editorVersion := targetVersion env;
              changes := changes |}
  end.

End Differ.

(** ** applyDiff *)

Section Applier.

Context {Patch : Type}.

(** One turn of the loop over [history.changes]: [text] is the argument of
    [applyDiff], [result] the copy being updated. *)
Definition applyChange (patch : Patch -> option string -> string)
    (text result : ScriptText) (change : FileChange Patch) : ScriptText :=
  match change with
  | added f _ => delete result f
  | removed f value => set result f value
  | edited f p => set result f (patch p (get text f))
  end.

Definition applyDiff (text : ScriptText) (history : HistoryEntry Patch)
    (patch : Patch -> option string -> string) : ScriptText :=
  fold_left (applyChange patch text) (changes history) text.

End Applier.

(** ** collapseHistory *)

Section Compactor.

Context {Patch : Type}.

(** The open merge group.  The code keeps it in four variables,
    [lastTimeIndex], [lastTime], [lastVersion] and [lastTimeText], which it
    assigns together when a group opens and reads only while
    [lastTimeIndex !== undefined]; the model keeps them in one optional
    record, [None] when [lastTimeIndex] is [undefined]. *)
Record Group : Type := {
  lastTimeIndex : nat;
  lastTime : Z;
  lastVersion : string;
  lastTimeText : ScriptText
}.

(** The variables the loop updates. *)
Record LoopState : Type := {
  newHistory : list (HistoryEntry Patch);
  current : ScriptText;
  group : option Group
}.

(** [history[i]] where the code stores the value it reads. *)
Definition index (history : list (HistoryEntry Patch)) (i : nat)
  : outcome (HistoryEntry Patch) :=
  match nth_error history i with
  | Some entry => Returned entry
  | None => UndefinedSlot
  end.

Variable env : Ambient.
Variable history : list (HistoryEntry Patch).
Variable diff : string -> string -> Patch.
Variable patch : Patch -> option string -> string.
Variables interval minTime maxTime : Z.

(** The object literal
    [{ timestamp: lastTime, editorVersion: lastVersion,
       changes: diffScriptText(current, lastTimeText, diff).changes }],
    which the code writes out in its three flushes.  Reading [.changes] of
    the [undefined] that [diffScriptText] returns for equal snapshots
    throws. *)
Definition mergedEntry (g : Group) (current : ScriptText)
  : outcome (HistoryEntry Patch) :=
  match diffScriptText env current (lastTimeText g) diff with
  | Some d =>
      Returned {| timestamp := lastTime g;
                  editorVersion := lastVersion g;
                  changes := changes d |}
  | None => Thrown (TypeError "changes")
  end.

(** The entry a flush inside the loop puts in front of [newHistory], when
    the loop is at index [i]: [if (lastTimeIndex - i > 1) ... else ...]. *)
Definition flushed (i : nat) (g : Group) (current : ScriptText)
  : outcome (HistoryEntry Patch) :=
  if Z.of_nat (lastTimeIndex g) - Z.of_nat i >? 1
  then mergedEntry g current
  else index history (lastTimeIndex g).

(** A group opened at index [i], on [entry], with [current] as it is
    before [entry] is rolled back. *)
Definition groupAt (i : nat) (entry : HistoryEntry Patch)
    (current : ScriptText) : Group :=
  {| lastTimeIndex := i;
     lastTime := timestamp entry;
     lastVersion := editorVersion entry;
     lastTimeText := current |}.

(** The body of the [for] loop at index [i], with [entry = history[i]]. *)
Definition step (i : nat) (entry : HistoryEntry Patch) (st : LoopState)
  : outcome LoopState :=
  if timestamp entry >? maxTime then
    Returned {| newHistory := entry :: newHistory st;
                current := applyDiff (current st) entry patch;
                group := group st |}
  else if timestamp entry <? minTime then
    match group st with
    | Some g =>
        e <- flushed i g (current st) ;;
        Returned {| newHistory := entry :: e :: newHistory st;
                    current := current st;
                    group := None |}
    | None =>
        Returned {| newHistory := entry :: newHistory st;
                    current := current st;
                    group := None |}
    end
  else
    match group st with
    | None =>
        Returned {| newHistory := newHistory st;
                    current := applyDiff (current st) entry patch;
                    group := Some (groupAt i entry (current st)) |}
    | Some g =>
        if lastTime g - timestamp entry >? interval then
          e <- flushed i g (current st) ;;
          Returned {| newHistory := e :: newHistory st;
                      current := applyDiff (current st) entry patch;
                      group := Some (groupAt i entry (current st)) |}
        else
          Returned {| newHistory := newHistory st;
                      current := applyDiff (current st) entry patch;
                      group := group st |}
    end.

(** [for (let i = n - 1; i >= 0; i--) { const entry = history[i]; ... }].
    Reading [entry.timestamp] of an [undefined] entry throws. *)
Fixpoint loop (n : nat) (st : LoopState) : outcome LoopState :=
  match n with
  | O => Returned st
  | S i =>
      match nth_error history i with
      | Some entry => st' <- step i entry st ;; loop i st'
      | None => Thrown (TypeError "timestamp")
      end
  end.

(** The flush after the loop, and the [return]. *)
Definition finish (st : LoopState) : outcome (list (HistoryEntry Patch)) :=
  match group st with
  | Some g =>
      match lastTimeIndex g with
      | S _ => e <- mergedEntry g (current st) ;; Returned (e :: newHistory st)
      | O => e <- index history 0 ;; Returned (e :: newHistory st)
      end
  | None => Returned (newHistory st)
  end.

End Compactor.

Arguments Group : clear implicits.
Arguments LoopState Patch : clear implicits.

Record CollapseHistoryOptions : Type := {
  interval : Z;
  minTime : option Z;
  maxTime : option Z
}.

(** [minTime] after [if (minTime === undefined) minTime = 0]. *)
Definition minTimeOf (options : CollapseHistoryOptions) : Z :=
  match minTime options with
  | Some t => t
  | None => 0
  end.

(** [maxTime] after
    [if (maxTime === undefined) maxTime = history[history.length - 1].timestamp];
    for an empty [history] the read is of [history[-1]], [undefined], and
    [.timestamp] throws. *)
Definition maxTimeOf {Patch : Type} (history : list (HistoryEntry Patch))
    (options : CollapseHistoryOptions) : outcome Z :=
  match maxTime options with
  | Some t => Returned t
  | None =>
      match history with
      | [] => Thrown (TypeError "timestamp")
      | _ :: _ =>
          match nth_error history (List.length history - 1) with
          | Some entry => Returned (timestamp entry)
          | None => Thrown (TypeError "timestamp")
          end
      end
  end.

Definition collapseHistory {Patch : Type} (env : Ambient)
    (history : list (HistoryEntry Patch)) (text : ScriptText)
    (options : CollapseHistoryOptions)
    (diff : string -> string -> Patch)
    (patch : Patch -> option string -> string)
  : outcome (list (HistoryEntry Patch)) :=
  let start := {| newHistory := []; current := text; group := None |} in
  hi <- maxTimeOf history options ;;
  st <- loop env history diff patch (interval options) (minTimeOf options) hi
             (List.length history) start ;;
  finish env history diff st.

(** ** Predicates of the statements *)

(** Every two neighbours [a], [b] of the list (in this order) satisfy [R]. *)
Fixpoint neighbours {A : Type} (R : A -> A -> bool) (l : list A) : bool :=
  match l with
  | a :: (b :: _) as rest => R a b && neighbours R rest
  | _ => true
  end.

Section Predicates.

Context {Patch : Type}.

(** The log is sorted ascending by timestamp (non-decreasing). *)
Definition ascending (history : list (HistoryEntry Patch)) : bool :=
  neighbours (fun a b => timestamp a <=? timestamp b) history.

(** Every adjacent pair of records is more than [interval] apart. *)
Definition coarse (interval : Z) (history : list (HistoryEntry Patch)) : bool :=
  neighbours (fun a b => interval <? timestamp b - timestamp a) history.

(** The timestamp lies in the window [[minTime, maxTime]]. *)
Definition inWindow (minTime maxTime : Z) (entry : HistoryEntry Patch) : bool :=
  (minTime <=? timestamp entry) && (timestamp entry <=? maxTime).

(** [timestamp > maxTime] or [timestamp < minTime]. *)
Definition outsideWindow (minTime maxTime : Z) (entry : HistoryEntry Patch)
  : bool :=
  (timestamp entry >? maxTime) || (timestamp entry <? minTime).

(** Two neighbours of the output, [a] before [b]: if both lie in the
    window, [b] is more than [interval] after [a]. *)
Definition bucketApart (interval minTime maxTime : Z)
    (a b : HistoryEntry Patch) : bool :=
  implb (inWindow minTime maxTime a && inWindow minTime maxTime b)
        (interval <? timestamp b - timestamp a).

(** The timestamp of the last record, 0 for an empty log. *)
Definition lastTimestamp (history : list (HistoryEntry Patch)) : Z :=
  match nth_error history (List.length history - 1) with
  | Some entry => timestamp entry
  | None => 0
  end.

End Predicates.

(** Two snapshots hold the same tracked files with the same contents. *)
Definition sameTracked (a b : ScriptText) : Prop :=
  forall file, tracked file = true -> get a file = get b file.

(** The tracked part of a snapshot. *)
Definition trackedPart (text : ScriptText) : ScriptText :=
  filter (fun kv => tracked (fst kv)) text.

(** ** The loop of collapseHistory, case by case *)

Section LoopCases.

Context {Patch : Type}.
Variable env : Ambient.
Variable history : list (HistoryEntry Patch).
Variable diff : string -> string -> Patch.
Variable patch : Patch -> option string -> string.
Variables ival lo hi : Z.

(** The open group was opened on a record of the log that the loop has
    visited, a record inside the window whose timestamp the group keeps. *)
Definition groupOk (n : nat) (st : LoopState Patch) : Prop :=
  forall g, group st = Some g ->
    (n <= lastTimeIndex g)%nat
    /\ exists e, nth_error history (lastTimeIndex g) = Some e
                 /\ timestamp e = lastTime g
                 /\ inWindow lo hi e = true.

(** The ways one turn of the loop, at index [i] on [entry], takes the
    state [st] to a new state: the branches of [step] that return. *)
Inductive stepCase (i : nat) (entry : HistoryEntry Patch)
    (st : LoopState Patch) : LoopState Patch -> Prop :=
| aboveWindow :
    hi < timestamp entry ->
    stepCase i entry st
      {| newHistory := entry :: newHistory st;
         current := applyDiff (current st) entry patch;
         group := group st |}
| belowWindowFlush (g : Group) (e : HistoryEntry Patch) :
    timestamp entry <= hi -> timestamp entry < lo ->
    group st = Some g ->
    flushed env history diff i g (current st) = Returned e ->
    stepCase i entry st
      {| newHistory := entry :: e :: newHistory st;
         current := current st;
         group := None |}
| belowWindow :
    timestamp entry <= hi -> timestamp entry < lo ->
    group st = None ->
    stepCase i entry st
      {| newHistory := entry :: newHistory st;
         current := current st;
         group := None |}
| openGroup :
    lo <= timestamp entry <= hi ->
    group st = None ->
    stepCase i entry st
      {| newHistory := newHistory st;
         current := applyDiff (current st) entry patch;
         group := Some (groupAt i entry (current st)) |}
| nextBucket (g : Group) (e : HistoryEntry Patch) :
    lo <= timestamp entry <= hi ->
    group st = Some g ->
    ival < lastTime g - timestamp entry ->
    flushed env history diff i g (current st) = Returned e ->
    stepCase i entry st
      {| newHistory := e :: newHistory st;
         current := applyDiff (current st) entry patch;
         group := Some (groupAt i entry (current st)) |}
| absorbed (g : Group) :
    lo <= timestamp entry <= hi ->
    group st = Some g ->
    lastTime g - timestamp entry <= ival ->
    stepCase i entry st
      {| newHistory := newHistory st;
         current := applyDiff (current st) entry patch;
         group := Some g |}.

End LoopCases.

(** ** Concrete logs *)

Local Open Scope string_scope.

(** An entry that edits one file. *)
Definition editOf {Patch : Type} (t : Z) (version file : string) (p : Patch)
  : HistoryEntry Patch :=
  {| timestamp := t; editorVersion := version; changes := [edited file p] |}.

(** The simplest pair of callbacks with
    [patch(diff(a, b), a) = b]: the payload is the text to go back to. *)
Definition targetText (a b : string) : string := b.

Definition replaceWith (p : string) (text : option string) : string := p.

Definition someEnv : Ambient := {| dateNow := 1000; targetVersion := "1.0.0" |}.

(** The scenario of the specification: five records at 0, 100, 110, 300 and
    305 on the file a.ts, whose content is [content k] before record [k]
    and [content (S k)] after it. *)
Section Scenario.

Context {Patch : Type}.
Variable diff : string -> string -> Patch.
Variables content version : nat -> string.

Definition scenarioEntry (k : nat) (t : Z) : HistoryEntry Patch :=
  editOf t (version k) "a.ts" (diff (content (S k)) (content k)).

Definition scenarioLog : list (HistoryEntry Patch) :=
  [scenarioEntry 0 0; scenarioEntry 1 100; scenarioEntry 2 110;
   scenarioEntry 3 300; scenarioEntry 4 305].

Definition scenarioText : ScriptText := [("a.ts"%string, content 5%nat)].

Definition scenarioOptions : CollapseHistoryOptions :=
  {| interval := 50; minTime := Some 0; maxTime := Some 305 |}.

End Scenario.

(** Contents "c0", ..., "c5", all different. *)
Definition numbered (k : nat) : string :=
  String "c" (String (ascii_of_nat (48 + k)) EmptyString).

Definition sameVersion (k : nat) : string := "1.0.0".

(** A log of three records more than 50 apart. *)
Definition sparseLog : list (HistoryEntry string) :=
  [editOf 0 "1.0.0" "a.ts" "c0"; editOf 100 "1.0.0" "a.ts" "c1";
   editOf 200 "1.0.0" "a.ts" "c2"].

(** A log of two records, 10 apart, that cancel out: a.ts goes from "x" to
    "y" at 0 and back to "x" at 10. *)
Definition cancellingLog : list (HistoryEntry string) :=
  [editOf 0 "1.0.0" "a.ts" (targetText "y" "x");
   editOf 10 "1.0.0" "a.ts" (targetText "x" "y")].

Definition cancellingText : ScriptText := [("a.ts"%string, "x"%string)].

(** The same two records, now at 100 and 110, after a record at 0 that
    changed a.ts from "w" to "x". *)
Definition cancellingAfter : list (HistoryEntry string) :=
  [editOf 0 "1.0.0" "a.ts" (targetText "x" "w");
   editOf 100 "1.0.0" "a.ts" (targetText "y" "x");
   editOf 110 "1.0.0" "a.ts" (targetText "x" "y")].

Definition cancellingOptions : CollapseHistoryOptions :=
  {| interval := 50; minTime := None; maxTime := None |}.

(** A log with records on both sides of the window [[100, 300]]. *)
Definition windowLog : list (HistoryEntry string) :=
  [editOf 0 "1.0.0" "a.ts" "c0"; editOf 50 "1.0.0" "a.ts" "c1";
   editOf 100 "1.0.0" "a.ts" "c2"; editOf 110 "1.0.0" "a.ts" "c3";
   editOf 300 "1.0.0" "a.ts" "c4"; editOf 400 "1.0.0" "a.ts" "c5"].

Definition windowText : ScriptText := [("a.ts"%string, "c6"%string)].

Definition windowOptions : CollapseHistoryOptions :=
  {| interval := 50; minTime := Some 100; maxTime := Some 300 |}.

(** What the code returns for it: the records at 100 and 110 merged. *)
Definition windowCollapsed : list (HistoryEntry string) :=
  [editOf 0 "1.0.0" "a.ts" "c0"; editOf 50 "1.0.0" "a.ts" "c1";
   editOf 110 "1.0.0" "a.ts" "c2"; editOf 300 "1.0.0" "a.ts" "c4";
   editOf 400 "1.0.0" "a.ts" "c5"].

(** Two snapshots: from the older to the newer one a.ts is removed, b.py
    edited, d.jres added, and the untracked notes.md and readme.txt come
    and go. *)
Definition olderSnapshot : ScriptText :=
  [("a.ts", "1"); ("b.py", "2"); ("c.blocks", "3"); ("notes.md", "n")].

Definition newerSnapshot : ScriptText :=
  [("b.py", "2x"); ("c.blocks", "3"); ("d.jres", "4"); ("readme.txt", "r")].

Definition olderToNewer : HistoryEntry string :=
  {| timestamp := 1000;
     editorVersion := "1.0.0";
     changes := [removed "a.ts" "1"; edited "b.py" "2"; added "d.jres" "4"] |}.

Local Close Scope string_scope.

(** ** Rolling back through a log *)

(** [text] rolled back through the records of [log], the newest (last)
    first, by [current = applyDiff(current, entry, patch)] as the loop of
    [collapseHistory] does: the snapshot before the oldest record. *)
Definition rollBack {Patch : Type} (log : list (HistoryEntry Patch))
    (text : ScriptText) (patch : Patch -> option string -> string)
  : ScriptText :=
  fold_right (fun entry current => applyDiff current entry patch) text log.

(** * Properties *)

(** ** Snapshots *)

Lemma get_set (text : ScriptText) (file value file' : string) :
  get (set text file value) file'
  = if String.eqb file file' then Some value else get text file'.
Proof.
  induction text as [|[k v] rest IH]; simpl.
  - reflexivity.
  - destruct (String.eqb_spec k file) as [->|Hk]; simpl.
    + destruct (String.eqb_spec file file'); reflexivity.
    + rewrite IH.
      destruct (String.eqb_spec k file') as [->|Hk'];
        [destruct (String.eqb_spec file file'); congruence | reflexivity].
Qed.

Lemma get_delete (text : ScriptText) (file file' : string) :
  get (delete text file) file'
  = if String.eqb file file' then None else get text file'.
Proof.
  unfold delete.
  induction text as [|[k v] rest IH]; simpl.
  - destruct (String.eqb file file'); reflexivity.
  - destruct (String.eqb_spec k file) as [->|Hk]; simpl.
    + rewrite IH. destruct (String.eqb_spec file file'); reflexivity.
    + rewrite IH.
      destruct (String.eqb_spec k file') as [->|Hk'];
        [destruct (String.eqb_spec file file'); congruence | reflexivity].
Qed.

Lemma get_in_wellFormed (text : ScriptText) (file value : string) :
  wellFormed text -> In (file, value) text -> get text file = Some value.
Proof.
  unfold wellFormed.
  induction text as [|[k v] rest IH]; simpl; intros Hnd Hin.
  - contradiction.
  - inversion Hnd as [|? ? Hk Hrest]; subst.
    destruct Hin as [Heq|Hin].
    + inversion Heq; subst. now rewrite String.eqb_refl.
    + destruct (String.eqb_spec k file) as [->|Hkf].
      * exfalso. apply Hk. change (In (fst (file, value)) (map fst rest)).
        now apply in_map.
      * now apply IH.
Qed.

Lemma get_trackedPart (text : ScriptText) (file : string) :
  tracked file = true -> get (trackedPart text) file = get text file.
Proof.
  intros Ht. unfold trackedPart.
  induction text as [|[k v] rest IH]; simpl.
  - reflexivity.
  - destruct (tracked k) eqn:Hk; simpl.
    + now rewrite IH.
    + destruct (String.eqb_spec k file) as [->|Hkf]; [congruence | exact IH].
Qed.

Lemma trackedPart_set (text : ScriptText) (file value : string) :
  tracked file = false -> trackedPart (set text file value) = trackedPart text.
Proof.
  intros Ht. unfold trackedPart.
  induction text as [|[k v] rest IH]; simpl.
  - now rewrite Ht.
  - destruct (String.eqb_spec k file) as [->|Hk]; simpl.
    + now rewrite Ht.
    + now rewrite IH.
Qed.

Lemma trackedPart_delete (text : ScriptText) (file : string) :
  tracked file = false -> trackedPart (delete text file) = trackedPart text.
Proof.
  intros Ht. unfold trackedPart, delete.
  induction text as [|[k v] rest IH]; simpl.
  - reflexivity.
  - destruct (String.eqb_spec k file) as [->|Hk]; simpl.
    + now rewrite Ht.
    + now rewrite IH.
Qed.

(** The updates of [applyDiff] keep a snapshot free of repeated keys. *)
Lemma keys_set (text : ScriptText) (file value : string) :
  keys (set text file value)
  = if existsb (String.eqb file) (keys text) then keys text
    else keys text ++ [file].
Proof.
  induction text as [|[k v] rest IH]; simpl.
  - reflexivity.
  - rewrite (String.eqb_sym file k).
    destruct (String.eqb_spec k file) as [->|Hk]; simpl.
    + reflexivity.
    + rewrite IH. now destruct (existsb (String.eqb file) (keys rest)).
Qed.

Lemma set_wellFormed (text : ScriptText) (file value : string) :
  wellFormed text -> wellFormed (set text file value).
Proof.
  unfold wellFormed. intros Hwf. rewrite keys_set.
  destruct (existsb (String.eqb file) (keys text)) eqn:Hex; [exact Hwf|].
  apply NoDup_app; [exact Hwf | repeat constructor; intros [] |].
  intros k Hin [Heq|[]]. subst k.
  assert (existsb (String.eqb file) (keys text) = true); [|congruence].
  apply existsb_exists. exists file. split; [exact Hin | apply String.eqb_refl].
Qed.

Lemma delete_wellFormed (text : ScriptText) (file : string) :
  wellFormed text -> wellFormed (delete text file).
Proof.
  unfold wellFormed, delete, keys.
  induction text as [|[k v] rest IH]; simpl; intros Hwf.
  - constructor.
  - inversion Hwf as [|? ? Hk Hrest]; subst.
    destruct (String.eqb k file); simpl; [now apply IH|].
    constructor; [|now apply IH].
    intros Hin. apply Hk. apply in_map_iff in Hin.
    destruct Hin as [kv [Hfst Hin]]. apply filter_In in Hin.
    apply in_map_iff. exists kv. tauto.
Qed.

Lemma flat_map_all_nil {A B : Type} (f : A -> list B) (l : list A) :
  (forall x, In x l -> f x = []) -> flat_map f l = [].
Proof.
  induction l as [|a l IH]; simpl; intros H.
  - reflexivity.
  - rewrite (H a (or_introl eq_refl)). apply IH. intros x Hx. apply H. now right.
Qed.

(** ** diffScriptText and applyDiff *)

Section DifferFacts.

Context {Patch : Type}.
Variable env : Ambient.
Variable diff : string -> string -> Patch.
Variable patch : Patch -> option string -> string.

Lemma diffScriptText_changes (oldVersion newVersion : ScriptText)
    (R : HistoryEntry Patch) :
  diffScriptText env oldVersion newVersion diff = Some R ->
  changes R = diffChanges oldVersion newVersion diff.
Proof.
  unfold diffScriptText.
  destruct (diffChanges oldVersion newVersion diff); intros H;
    inversion H; reflexivity.
Qed.

Lemma diffScriptText_none (oldVersion newVersion : ScriptText) :
  diffScriptText env oldVersion newVersion diff = None
  <-> diffChanges oldVersion newVersion diff = [].
Proof.
  unfold diffScriptText.
  destruct (diffChanges oldVersion newVersion diff); split; congruence.
Qed.

Lemma removedOrEdited_tracked (newVersion : ScriptText)
    (kv : string * string) (c : FileChange Patch) :
  In c (removedOrEdited newVersion diff kv) -> tracked (filename c) = true.
Proof.
  destruct kv as [file ov]. unfold removedOrEdited.
  destruct (tracked file) eqn:Ht; simpl; [|contradiction].
  destruct (get newVersion file) as [nv|]; simpl.
  - destruct (String.eqb ov nv); simpl; [contradiction|].
    intros [<-|[]]. exact Ht.
  - intros [<-|[]]. exact Ht.
Qed.

Lemma addedIn_tracked (oldVersion : ScriptText) (kv : string * string)
    (c : FileChange Patch) :
  In c (addedIn oldVersion kv) -> tracked (filename c) = true.
Proof.
  destruct kv as [file nv]. unfold addedIn.
  destruct (tracked file) eqn:Ht; simpl; [|contradiction].
  destruct (get oldVersion file); simpl; [contradiction|].
  intros [<-|[]]. exact Ht.
Qed.

Lemma diffChanges_tracked (oldVersion newVersion : ScriptText) :
  Forall (fun c => tracked (filename c) = true)
         (diffChanges oldVersion newVersion diff).
Proof.
  apply Forall_forall. intros c Hin. unfold diffChanges in Hin.
  apply in_app_or in Hin. destruct Hin as [Hin|Hin];
    apply in_flat_map in Hin; destruct Hin as [kv [_ Hc]].
  - eapply removedOrEdited_tracked; eassumption.
  - eapply addedIn_tracked; eassumption.
Qed.

Lemma removedOrEdited_trackedPart (newVersion : ScriptText)
    (kv : string * string) :
  removedOrEdited (trackedPart newVersion) diff kv
  = removedOrEdited newVersion diff kv.
Proof.
  destruct kv as [file ov]. unfold removedOrEdited.
  destruct (tracked file) eqn:Ht; simpl; [|reflexivity].
  now rewrite get_trackedPart.
Qed.

Lemma addedIn_trackedPart (oldVersion : ScriptText) (kv : string * string) :
  addedIn (Patch := Patch) (trackedPart oldVersion) kv = addedIn oldVersion kv.
Proof.
  destruct kv as [file nv]. unfold addedIn.
  destruct (tracked file) eqn:Ht; simpl; [|reflexivity].
  now rewrite get_trackedPart.
Qed.

Lemma flat_map_trackedPart (f : string * string -> list (FileChange Patch))
    (text : ScriptText) :
  (forall kv, tracked (fst kv) = false -> f kv = []) ->
  flat_map f (trackedPart text) = flat_map f text.
Proof.
  intros Hf. unfold trackedPart.
  induction text as [|kv rest IH]; simpl.
  - reflexivity.
  - destruct (tracked (fst kv)) eqn:Ht; simpl.
    + now rewrite IH.
    + now rewrite (Hf kv Ht).
Qed.

Lemma diffChanges_trackedPart (oldVersion newVersion : ScriptText) :
  diffChanges (trackedPart oldVersion) (trackedPart newVersion) diff
  = diffChanges oldVersion newVersion diff.
Proof.
  unfold diffChanges. f_equal.
  - rewrite flat_map_trackedPart.
    + apply flat_map_ext. intros kv. apply removedOrEdited_trackedPart.
    + intros [file ov] Ht. simpl in Ht. unfold removedOrEdited.
      now rewrite Ht.
  - rewrite flat_map_trackedPart.
    + apply flat_map_ext. intros kv. apply addedIn_trackedPart.
    + intros [file nv] Ht. simpl in Ht. unfold addedIn. now rewrite Ht.
Qed.

Lemma diffScriptText_trackedPart (oldVersion newVersion : ScriptText) :
  diffScriptText env (trackedPart oldVersion) (trackedPart newVersion) diff
  = diffScriptText env oldVersion newVersion diff.
Proof.
  unfold diffScriptText. now rewrite diffChanges_trackedPart.
Qed.

Lemma diffChanges_sameTracked (oldVersion newVersion : ScriptText) :
  wellFormed oldVersion -> sameTracked oldVersion newVersion ->
  diffChanges oldVersion newVersion diff = [].
Proof.
  intros Hwf Hsame. unfold diffChanges.
  assert (H1 : flat_map (removedOrEdited newVersion diff) oldVersion = []).
  { apply flat_map_all_nil. intros [file ov] Hin. unfold removedOrEdited.
    destruct (tracked file) eqn:Ht; simpl; [|reflexivity].
    rewrite <- (Hsame file Ht), (get_in_wellFormed _ _ _ Hwf Hin).
    now rewrite String.eqb_refl. }
  assert (H2 : flat_map (addedIn (Patch := Patch) oldVersion) newVersion = []).
  { apply flat_map_all_nil. intros [file nv] Hin. unfold addedIn.
    destruct (tracked file) eqn:Ht; simpl; [|reflexivity].
    rewrite (Hsame file Ht).
    destruct (get newVersion file) eqn:Hg; [reflexivity|].
    exfalso. clear -Hin Hg.
    induction newVersion as [|[k v] rest IH]; simpl in *; [contradiction|].
    destruct (String.eqb_spec k file) as [->|Hk]; [discriminate|].
    destruct Hin as [Heq|Hin]; [inversion Heq; congruence | auto]. }
  now rewrite H1, H2.
Qed.

End DifferFacts.

Section ApplierFacts.

Context {Patch : Type}.
Variable patch : Patch -> option string -> string.

(** A change leaves every other file of the result as it is. *)
Lemma applyChange_other (text result : ScriptText) (c : FileChange Patch)
    (file : string) :
  filename c <> file ->
  get (applyChange patch text result c) file = get result file.
Proof.
  intros Hne. destruct c as [f v|f v|f p]; simpl in Hne |- *.
  - rewrite get_delete. now destruct (String.eqb_spec f file).
  - rewrite get_set. now destruct (String.eqb_spec f file).
  - rewrite get_set. now destruct (String.eqb_spec f file).
Qed.

Lemma fold_applyChange_other (text : ScriptText) (cs : list (FileChange Patch))
    (result : ScriptText) (file : string) :
  ~ In file (map filename cs) ->
  get (fold_left (applyChange patch text) cs result) file = get result file.
Proof.
  revert result. induction cs as [|c cs IH]; simpl; intros result Hn.
  - reflexivity.
  - rewrite IH by tauto. apply applyChange_other. tauto.
Qed.

Lemma applyDiff_wellFormed (text : ScriptText) (entry : HistoryEntry Patch) :
  wellFormed text -> wellFormed (applyDiff text entry patch).
Proof.
  unfold applyDiff. generalize text at 1 3.
  induction (changes entry) as [|c cs IH]; simpl; intros result Hwf.
  - exact Hwf.
  - apply IH. destruct c as [f v|f v|f p]; simpl.
    + now apply delete_wellFormed.
    + now apply set_wellFormed.
    + now apply set_wellFormed.
Qed.

(** The second loop of [diffScriptText], undone: the tracked files that
    [oldVersion] lacks are deleted. *)
Lemma fold_addedIn (oldVersion text added result : ScriptText) (file : string) :
  get (fold_left (applyChange patch text)
                 (flat_map (addedIn oldVersion) added) result) file
  = match get added file with
    | Some _ =>
        if tracked file
        then match get oldVersion file with
             | None => None
             | Some _ => get result file
             end
        else get result file
    | None => get result file
    end.
Proof.
  revert result. induction added as [|[k nv] rest IH]; intros result.
  - reflexivity.
  - cbn [flat_map get]. rewrite fold_left_app, IH.
    assert (Hstep : get (fold_left (applyChange patch text)
                             (addedIn oldVersion (k, nv)) result) file
                    = if String.eqb k file && tracked k
                      then match get oldVersion k with
                           | None => None
                           | Some _ => get result file
                           end
                      else get result file).
    { unfold addedIn. destruct (tracked k); simpl;
        [|now rewrite andb_false_r].
      rewrite andb_true_r.
      destruct (get oldVersion k); simpl.
      - now destruct (String.eqb k file).
      - rewrite get_delete. now destruct (String.eqb k file). }
    rewrite Hstep. clear Hstep.
    destruct (String.eqb_spec k file) as [->|Hk]; simpl; [|reflexivity].
    destruct (get rest file), (tracked file), (get oldVersion file);
      reflexivity.
Qed.

(** An [edited] change of a file the snapshot lacks: [patch] gets
    [undefined] for the text, and what it returns becomes the file. *)
Lemma applyDiff_edited_absent (text : ScriptText) (entry : HistoryEntry Patch)
    (file : string) (p : Patch) :
  NoDup (map filename (changes entry)) ->
  In (edited file p) (changes entry) ->
  get text file = None ->
  get (applyDiff text entry patch) file = Some (patch p None).
Proof.
  intros Hnd Hin Habs. unfold applyDiff.
  destruct (in_split _ _ Hin) as [before [after Hsplit]].
  rewrite Hsplit in Hnd |- *. rewrite fold_left_app. cbn [fold_left].
  rewrite map_app in Hnd. cbn [map filename] in Hnd.
  apply NoDup_remove_2 in Hnd.
  rewrite fold_applyChange_other.
  - cbn [applyChange]. now rewrite get_set, String.eqb_refl, Habs.
  - intros Hafter. apply Hnd. apply in_or_app. now right.
Qed.

Variable diff : string -> string -> Patch.

(** The first loop of [diffScriptText], undone on the snapshot
    [newVersion] it was computed for: the tracked files of [oldVersion]
    get their old contents back. *)
Lemma fold_removedOrEdited (older newVersion result : ScriptText)
    (file : string) :
  (forall a b, patch (diff a b) (Some a) = b) ->
  wellFormed older ->
  get (fold_left (applyChange patch newVersion)
                 (flat_map (removedOrEdited newVersion diff) older) result)
      file
  = match get older file with
    | Some oldValue =>
        if tracked file
        then match get newVersion file with
             | Some newValue =>
                 if String.eqb oldValue newValue then get result file
                 else Some oldValue
             | None => Some oldValue
             end
        else get result file
    | None => get result file
    end.
Proof.
  intros Hround. unfold wellFormed. revert result.
  induction older as [|[k ov] rest IH]; intros result Hwf.
  - reflexivity.
  - inversion Hwf as [|? ? Hk Hrest]; subst.
    cbn [flat_map get]. rewrite fold_left_app.
    destruct (String.eqb_spec k file) as [->|Hkf].
    + rewrite fold_applyChange_other.
      2:{ intros Hin. apply in_map_iff in Hin. destruct Hin as [c [Hf Hc]].
          apply in_flat_map in Hc. destruct Hc as [[k' v'] [Hin' Hc]].
          apply Hk. change (In file (map fst rest)).
          apply in_map_iff. exists (k', v'). split; [|exact Hin'].
          unfold removedOrEdited in Hc.
          destruct (tracked k'); simpl in Hc; [|contradiction].
          destruct (get newVersion k').
          - destruct (String.eqb v' s); simpl in Hc; [contradiction|].
            destruct Hc as [<-|[]]. exact Hf.
          - destruct Hc as [<-|[]]. exact Hf. }
      unfold removedOrEdited.
      destruct (tracked file) eqn:Ht; simpl; [|reflexivity].
      destruct (get newVersion file) as [nv|] eqn:Hn; simpl.
      * destruct (String.eqb ov nv); simpl; [reflexivity|].
        now rewrite get_set, String.eqb_refl, Hn, Hround.
      * now rewrite get_set, String.eqb_refl.
    + rewrite IH by exact Hrest.
      assert (Hsame : get (fold_left (applyChange patch newVersion)
                 (removedOrEdited newVersion diff (k, ov)) result) file
               = get result file).
      { apply fold_applyChange_other. intros Hin.
        apply in_map_iff in Hin. destruct Hin as [c [Hf Hc]].
        unfold removedOrEdited in Hc.
        destruct (tracked k); simpl in Hc; [|contradiction].
        destruct (get newVersion k).
        - destruct (String.eqb ov s); simpl in Hc; [contradiction|].
          destruct Hc as [<-|[]]. simpl in Hf. congruence.
        - destruct Hc as [<-|[]]. simpl in Hf. congruence. }
      now rewrite Hsame.
Qed.

(** Rolling a snapshot back through the entry computed for it gives the
    tracked files of the older snapshot. *)
Lemma applyDiff_diffChanges (env : Ambient) (previous S : ScriptText)
    (R : HistoryEntry Patch) :
  (forall a b, patch (diff a b) (Some a) = b) ->
  wellFormed previous ->
  diffScriptText env previous S diff = Some R ->
  sameTracked (applyDiff S R patch) previous.
Proof.
  intros Hround Hwf HR file Ht. unfold applyDiff.
  rewrite (diffScriptText_changes _ _ _ _ _ HR). unfold diffChanges.
  rewrite fold_left_app, fold_addedIn, Ht.
  rewrite (fold_removedOrEdited _ _ _ _ Hround Hwf), Ht.
  destruct (get S file) as [nv|] eqn:HS;
    destruct (get previous file) as [ov|] eqn:HP; try reflexivity.
  destruct (String.eqb_spec ov nv); congruence.
Qed.

End ApplierFacts.

(** ** Lists read by index *)

Lemma skipn_nth_error {A : Type} (l : list A) (i : nat) (a : A) :
  nth_error l i = Some a -> skipn i l = a :: skipn (S i) l.
Proof.
  revert i. induction l as [|x l IH]; intros [|i]; simpl; intros H;
    try discriminate.
  - now inversion H.
  - now apply IH.
Qed.

Lemma neighbours_nth {A : Type} (R : A -> A -> bool) (l : list A) (i : nat)
    (a b : A) :
  neighbours R l = true ->
  nth_error l i = Some a -> nth_error l (S i) = Some b -> R a b = true.
Proof.
  revert i. induction l as [|x [|y l] IH]; intros i Hn Ha Hb.
  - now destruct i.
  - destruct i as [|[|i]]; discriminate.
  - cbn [neighbours] in Hn. apply andb_prop in Hn. destruct Hn as [Hxy Hrest].
    destruct i as [|i].
    + simpl in Ha, Hb. inversion Ha; inversion Hb; subst. exact Hxy.
    + apply (IH i Hrest); assumption.
Qed.

Lemma nth_neighbours {A : Type} (R : A -> A -> bool) (l : list A) :
  (forall i a b, nth_error l i = Some a -> nth_error l (S i) = Some b ->
                 R a b = true) ->
  neighbours R l = true.
Proof.
  induction l as [|x [|y l] IH]; intros H; try reflexivity.
  cbn [neighbours]. apply andb_true_intro. split.
  - now apply (H 0%nat).
  - apply IH. intros i a b Ha Hb. now apply (H (S i)).
Qed.

Lemma neighbours_cons {A : Type} (R : A -> A -> bool) (a : A) (l : list A) :
  (forall b, hd_error l = Some b -> R a b = true) ->
  neighbours R l = true -> neighbours R (a :: l) = true.
Proof.
  destruct l as [|b l]; intros Hab Hl; [reflexivity|].
  cbn [neighbours]. apply andb_true_intro. split; [now apply Hab | exact Hl].
Qed.

Section LogFacts.

Context {Patch : Type}.

Lemma ascending_nth (history : list (HistoryEntry Patch)) (i j : nat)
    (a b : HistoryEntry Patch) :
  ascending history = true -> (i <= j)%nat ->
  nth_error history i = Some a -> nth_error history j = Some b ->
  timestamp a <= timestamp b.
Proof.
  intros Hasc Hij Ha. revert b. induction Hij as [|j Hij IH]; intros b Hb.
  - assert (a = b) by congruence. subst. lia.
  - destruct (nth_error history j) as [c|] eqn:Hc.
    + specialize (IH c eq_refl).
      pose proof (neighbours_nth _ _ _ _ _ Hasc Hc Hb) as Hcb.
      apply Z.leb_le in Hcb. lia.
    + apply nth_error_None in Hc.
      assert (nth_error history (S j) = None) by (apply nth_error_None; lia).
      congruence.
Qed.

Lemma outsideWindow_inWindow (lo hi : Z) (entry : HistoryEntry Patch) :
  outsideWindow lo hi entry = negb (inWindow lo hi entry).
Proof.
  unfold outsideWindow, inWindow.
  destruct (Z.gtb_spec (timestamp entry) hi), (Z.ltb_spec (timestamp entry) lo),
    (Z.leb_spec lo (timestamp entry)), (Z.leb_spec (timestamp entry) hi);
    simpl; try reflexivity; lia.
Qed.

Lemma inWindow_timestamp (lo hi : Z) (a b : HistoryEntry Patch) :
  timestamp a = timestamp b -> inWindow lo hi a = inWindow lo hi b.
Proof. unfold inWindow. now intros ->. Qed.

End LogFacts.

(** ** The loop of collapseHistory *)

Section CompactorFacts.

Context {Patch : Type}.
Variable env : Ambient.
Variable history : list (HistoryEntry Patch).
Variable diff : string -> string -> Patch.
Variable patch : Patch -> option string -> string.
Variables ival lo hi : Z.

Local Abbreviation step' := (step env history diff patch ival lo hi).
Local Abbreviation loop' := (loop env history diff patch ival lo hi).
Local Abbreviation flushed' := (flushed env history diff).
Local Abbreviation mergedEntry' := (mergedEntry env diff).
Local Abbreviation finish' := (finish env history diff).
Local Abbreviation groupOk' := (groupOk history lo hi).
Local Abbreviation stepCase' := (stepCase env history diff patch ival lo hi).

(** An invariant of the loop body is an invariant of the loop. *)
Lemma loop_invariant (I : nat -> LoopState Patch -> Prop) :
  (forall i entry st st',
      nth_error history i = Some entry ->
      I (S i) st -> step' i entry st = Returned st' -> I i st') ->
  forall n st st', I n st -> loop' n st = Returned st' -> I 0%nat st'.
Proof.
  intros Hstep. induction n as [|i IH]; intros st st' HI Hloop.
  - simpl in Hloop. now inversion Hloop; subst.
  - simpl in Hloop. destruct (nth_error history i) as [entry|] eqn:He;
      [|discriminate].
    destruct (step' i entry st) as [st1| |] eqn:Hs; simpl in Hloop;
      try discriminate.
    eapply IH; [|exact Hloop]. eapply Hstep; eassumption.
Qed.

Lemma mergedEntry_timestamp (g : Group) (cur : ScriptText)
    (e : HistoryEntry Patch) :
  mergedEntry' g cur = Returned e -> timestamp e = lastTime g.
Proof.
  unfold mergedEntry.
  destruct (diffScriptText env cur (lastTimeText g) diff); intros H;
    inversion H; reflexivity.
Qed.

Lemma flushed_timestamp (i : nat) (g : Group) (cur : ScriptText)
    (e e0 : HistoryEntry Patch) :
  nth_error history (lastTimeIndex g) = Some e0 ->
  timestamp e0 = lastTime g ->
  flushed' i g cur = Returned e -> timestamp e = lastTime g.
Proof.
  intros He0 Ht. unfold flushed, index.
  destruct (Z.of_nat (lastTimeIndex g) - Z.of_nat i >? 1).
  - apply mergedEntry_timestamp.
  - rewrite He0. intros H. inversion H; subst. exact Ht.
Qed.

Lemma finish_timestamp (st : LoopState Patch) (g : Group)
    (out : list (HistoryEntry Patch)) :
  groupOk' 0 st -> group st = Some g -> finish' st = Returned out ->
  exists e, out = e :: newHistory st /\ timestamp e = lastTime g.
Proof.
  intros Hok Hg. unfold finish. rewrite Hg.
  destruct (Hok g Hg) as [_ [e0 [He0 [Ht _]]]].
  destruct (lastTimeIndex g) as [|k] eqn:Hk.
  - unfold index. rewrite He0. simpl. intros H. inversion H; subst.
    now exists e0.
  - destruct (mergedEntry' g (current st)) as [e| |] eqn:Hm; simpl;
      intros H; inversion H; subst.
    exists e. split; [reflexivity|]. now apply mergedEntry_timestamp in Hm.
Qed.

Lemma groupOk_step (i : nat) (entry : HistoryEntry Patch)
    (st st' : LoopState Patch) :
  nth_error history i = Some entry ->
  groupOk' (S i) st -> step' i entry st = Returned st' -> groupOk' i st'.
Proof.
  intros He Hok Hstep g' Hg'.
  assert (Hkeep : group st = Some g' ->
                  (i <= lastTimeIndex g')%nat
                  /\ exists e, nth_error history (lastTimeIndex g') = Some e
                               /\ timestamp e = lastTime g'
                               /\ inWindow lo hi e = true).
  { intros Hg. destruct (Hok g' Hg) as [Hle Hrest]. split; [lia|exact Hrest]. }
  unfold step in Hstep.
  destruct (Z.gtb_spec (timestamp entry) hi) as [Habove|Habove].
  - inversion Hstep; subst; simpl in Hg'. now apply Hkeep.
  - destruct (Z.ltb_spec (timestamp entry) lo) as [Hbelow|Hbelow].
    + destruct (group st) as [g|].
      * destruct (flushed' i g (current st)); simpl in Hstep;
          inversion Hstep; subst; discriminate.
      * inversion Hstep; subst; discriminate.
    + assert (Hin : inWindow lo hi entry = true).
      { unfold inWindow. apply andb_true_intro.
        split; [apply Z.leb_le | apply Z.leb_le]; lia. }
      destruct (group st) as [g|] eqn:Hg.
      * destruct (lastTime g - timestamp entry >? ival).
        -- destruct (flushed' i g (current st)); simpl in Hstep;
             inversion Hstep; subst; simpl in Hg'.
           injection Hg' as <-. simpl. split; [lia|]. now exists entry.
        -- inversion Hstep; subst; simpl in Hg'. now apply Hkeep.
      * inversion Hstep; subst; simpl in Hg'.
        injection Hg' as <-. simpl. split; [lia|]. now exists entry.
Qed.

Lemma step_cases (i : nat) (entry : HistoryEntry Patch)
    (st st' : LoopState Patch) :
  step' i entry st = Returned st' -> stepCase' i entry st st'.
Proof.
  unfold step.
  destruct (Z.gtb_spec (timestamp entry) hi) as [Habove|Habove].
  - intros H. inversion H; subst. now constructor.
  - destruct (Z.ltb_spec (timestamp entry) lo) as [Hbelow|Hbelow].
    + destruct (group st) as [g|] eqn:Hg.
      * destruct (flushed' i g (current st)) as [e| |] eqn:Hf; simpl;
          intros H; inversion H; subst.
        now apply belowWindowFlush with (g := g).
      * intros H. inversion H; subst. now constructor.
    + destruct (group st) as [g|] eqn:Hg.
      * destruct (Z.gtb_spec (lastTime g - timestamp entry) ival) as [Hgap|Hgap].
        -- destruct (flushed' i g (current st)) as [e| |] eqn:Hf; simpl;
             intros H; inversion H; subst.
           apply nextBucket with (g := g); auto; lia.
        -- intros H. inversion H; subst. apply absorbed; auto; lia.
      * intros H. inversion H; subst. apply openGroup; auto; lia.
Qed.

(** What a flush can do when the group is well formed: return an entry
    that carries the group's timestamp, or throw on [.changes]. *)
Lemma mergedEntry_outcome (g : Group) (cur : ScriptText) :
  (exists e, mergedEntry' g cur = Returned e)
  \/ mergedEntry' g cur = Thrown (TypeError "changes").
Proof.
  unfold mergedEntry.
  destruct (diffScriptText env cur (lastTimeText g) diff); eauto.
Qed.

Lemma flushed_outcome (i : nat) (g : Group) (cur : ScriptText)
    (e0 : HistoryEntry Patch) :
  nth_error history (lastTimeIndex g) = Some e0 ->
  (exists e, flushed' i g cur = Returned e)
  \/ flushed' i g cur = Thrown (TypeError "changes").
Proof.
  intros He0. unfold flushed, index.
  destruct (Z.of_nat (lastTimeIndex g) - Z.of_nat i >? 1).
  - apply mergedEntry_outcome.
  - rewrite He0. eauto.
Qed.

Lemma step_outcome (i : nat) (entry : HistoryEntry Patch)
    (st : LoopState Patch) :
  groupOk' (S i) st ->
  (exists st', step' i entry st = Returned st')
  \/ step' i entry st = Thrown (TypeError "changes").
Proof.
  intros Hok. unfold step.
  destruct (timestamp entry >? hi); [eauto|].
  destruct (timestamp entry <? lo).
  - destruct (group st) as [g|] eqn:Hg; [|eauto].
    destruct (Hok g Hg) as [_ [e0 [He0 _]]].
    destruct (flushed_outcome i g (current st) e0 He0) as [[e ->]| ->];
      simpl; eauto.
  - destruct (group st) as [g|] eqn:Hg; [|eauto].
    destruct (lastTime g - timestamp entry >? ival); [|eauto].
    destruct (Hok g Hg) as [_ [e0 [He0 _]]].
    destruct (flushed_outcome i g (current st) e0 He0) as [[e ->]| ->];
      simpl; eauto.
Qed.

Lemma loop_outcome (n : nat) (st : LoopState Patch) :
  (n <= List.length history)%nat -> groupOk' n st ->
  (exists st', loop' n st = Returned st' /\ groupOk' 0 st')
  \/ loop' n st = Thrown (TypeError "changes").
Proof.
  revert st. induction n as [|i IH]; intros st Hn Hok.
  - left. now exists st.
  - simpl. destruct (nth_error history i) as [entry|] eqn:He.
    + destruct (step_outcome i entry st Hok) as [[st1 H1]|H1];
        rewrite H1; simpl; [|now right].
      apply IH; [lia|]. eapply groupOk_step; eassumption.
    + apply nth_error_None in He. lia.
Qed.

Lemma finish_outcome (st : LoopState Patch) :
  groupOk' 0 st ->
  (exists out, finish' st = Returned out)
  \/ finish' st = Thrown (TypeError "changes").
Proof.
  intros Hok. unfold finish.
  destruct (group st) as [g|] eqn:Hg; [|eauto].
  destruct (Hok g Hg) as [_ [e0 [He0 _]]].
  destruct (lastTimeIndex g) as [|k].
  - unfold index. rewrite He0. simpl. eauto.
  - destruct (mergedEntry_outcome g (current st)) as [[e ->]| ->];
      simpl; eauto.
Qed.

Lemma groupOk_start (text : ScriptText) :
  groupOk' (List.length history)
           {| newHistory := []; current := text; group := None |}.
Proof. intros g Hg. discriminate. Qed.

(** The invariant rule, with [groupOk] carried along. *)
Lemma loop_invariant_ok (I : nat -> LoopState Patch -> Prop) :
  (forall i entry st st',
      nth_error history i = Some entry ->
      groupOk' (S i) st -> groupOk' i st' ->
      I (S i) st -> stepCase' i entry st st' -> I i st') ->
  forall n st st',
    groupOk' n st -> I n st -> loop' n st = Returned st' ->
    groupOk' 0 st' /\ I 0%nat st'.
Proof.
  intros Hstep n st st' Hok HI Hloop.
  apply (loop_invariant (fun n st => groupOk' n st /\ I n st))
    with (n := n) (st := st); auto.
  intros i entry st0 st1 He [Hok0 HI0] Hs. split.
  - eapply groupOk_step; eassumption.
  - eapply Hstep; eauto.
    + eapply groupOk_step; eassumption.
    + now apply step_cases.
Qed.

(** *** A log that is already coarse *)

(** While the loop runs down a sorted log whose neighbours are more than
    [ival] apart, what it has put out and the group it holds open make up
    the part of the log it has visited, record for record. *)
Lemma coarse_step (i : nat) (entry : HistoryEntry Patch)
    (st : LoopState Patch) :
  ascending history = true -> coarse ival history = true ->
  nth_error history i = Some entry ->
  (group st = None /\ newHistory st = skipn (S i) history
   \/ exists g e, group st = Some g /\ lastTimeIndex g = S i
                  /\ nth_error history (S i) = Some e
                  /\ lastTime g = timestamp e /\ inWindow lo hi e = true
                  /\ newHistory st = skipn (S (S i)) history) ->
  exists st',
    step' i entry st = Returned st'
    /\ (group st' = None /\ newHistory st' = skipn i history
        \/ exists g e, group st' = Some g /\ lastTimeIndex g = i
                       /\ nth_error history i = Some e
                       /\ lastTime g = timestamp e /\ inWindow lo hi e = true
                       /\ newHistory st' = skipn (S i) history).
Proof.
  intros Hasc Hcoarse He Hinv.
  pose proof (skipn_nth_error _ _ _ He) as Hskip.
  unfold step.
  destruct (Z.gtb_spec (timestamp entry) hi) as [Habove|Habove].
  - destruct Hinv as [[Hg Hnh]|[g [e [Hg [Hidx [Hnth [Hlt [Hwin Hnh]]]]]]]].
    + eexists. split; [reflexivity|]. left. simpl.
      split; [exact Hg | now rewrite Hnh, Hskip].
    + exfalso.
      pose proof (ascending_nth history i (S i) entry e Hasc
                    (Nat.le_succ_diag_r i) He Hnth).
      unfold inWindow in Hwin. apply andb_prop in Hwin.
      destruct Hwin as [_ Hhi]. apply Z.leb_le in Hhi. lia.
  - destruct (Z.ltb_spec (timestamp entry) lo) as [Hbelow|Hbelow].
    + destruct Hinv as [[Hg Hnh]|[g [e [Hg [Hidx [Hnth [Hlt [Hwin Hnh]]]]]]]];
        rewrite Hg.
      * eexists. split; [reflexivity|]. left. simpl.
        split; [reflexivity | now rewrite Hnh, Hskip].
      * unfold flushed, index. rewrite Hidx.
        destruct (Z.gtb_spec (Z.of_nat (S i) - Z.of_nat i) 1);
          [exfalso; lia|].
        rewrite Hnth. simpl. eexists. split; [reflexivity|]. left. simpl.
        split; [reflexivity|].
        now rewrite Hnh, Hskip, (skipn_nth_error _ _ _ Hnth).
    + assert (Hin : inWindow lo hi entry = true).
      { unfold inWindow. apply andb_true_intro.
        split; apply Z.leb_le; lia. }
      destruct Hinv as [[Hg Hnh]|[g [e [Hg [Hidx [Hnth [Hlt [Hwin Hnh]]]]]]]];
        rewrite Hg.
      * eexists. split; [reflexivity|]. right.
        exists (groupAt i entry (current st)), entry. simpl. auto 7.
      * pose proof (neighbours_nth _ _ _ _ _ Hcoarse He Hnth) as Hgap.
        apply Z.ltb_lt in Hgap.
        destruct (Z.gtb_spec (lastTime g - timestamp entry) ival);
          [|exfalso; lia].
        unfold flushed, index. rewrite Hidx.
        destruct (Z.gtb_spec (Z.of_nat (S i) - Z.of_nat i) 1);
          [exfalso; lia|].
        rewrite Hnth. simpl. eexists. split; [reflexivity|]. right.
        exists (groupAt i entry (current st)), entry. simpl.
        rewrite Hnh, <- (skipn_nth_error _ _ _ Hnth). auto 7.
Qed.

Lemma coarse_loop (n : nat) (st : LoopState Patch) :
  ascending history = true -> coarse ival history = true ->
  (n <= List.length history)%nat ->
  (group st = None /\ newHistory st = skipn n history
   \/ exists g e, group st = Some g /\ lastTimeIndex g = n
                  /\ nth_error history n = Some e
                  /\ lastTime g = timestamp e /\ inWindow lo hi e = true
                  /\ newHistory st = skipn (S n) history) ->
  exists st',
    loop' n st = Returned st'
    /\ (group st' = None /\ newHistory st' = history
        \/ exists g e, group st' = Some g /\ lastTimeIndex g = 0%nat
                       /\ nth_error history 0 = Some e
                       /\ newHistory st' = skipn 1 history).
Proof.
  intros Hasc Hcoarse. revert st. induction n as [|i IH]; intros st Hn Hinv.
  - exists st. split; [reflexivity|].
    destruct Hinv as [[Hg Hnh]|[g [e [Hg [Hidx [Hnth [_ [_ Hnh]]]]]]]].
    + now left.
    + right. now exists g, e.
  - assert (He : exists entry, nth_error history i = Some entry).
    { destruct (nth_error history i) eqn:He; [eauto|].
      apply nth_error_None in He. lia. }
    destruct He as [entry He]. simpl. rewrite He.
    destruct (coarse_step i entry st Hasc Hcoarse He Hinv) as [st1 [Hs H1]].
    rewrite Hs. simpl. apply IH; [lia | exact H1].
Qed.

Lemma coarse_run (text : ScriptText) :
  ascending history = true -> coarse ival history = true ->
  (st <- loop' (List.length history)
               {| newHistory := []; current := text; group := None |} ;;
   finish' st) = Returned history.
Proof.
  intros Hasc Hcoarse.
  destruct (coarse_loop (List.length history)
              {| newHistory := []; current := text; group := None |}
              Hasc Hcoarse (Nat.le_refl _)) as [st [Hloop Hfin]].
  { left. simpl. split; [reflexivity|]. symmetry. apply skipn_all. }
  rewrite Hloop. simpl. unfold finish.
  destruct Hfin as [[Hg Hnh]|[g [e [Hg [Hidx [Hnth Hnh]]]]]]; rewrite Hg.
  - now rewrite Hnh.
  - rewrite Hidx. unfold index. rewrite Hnth. simpl. rewrite Hnh.
    now rewrite <- (skipn_nth_error _ _ _ Hnth).
Qed.

(** The six ways a turn of the loop can return, with the facts of each. *)
Ltac step_branches H :=
  destruct H as [Habove|g e Hhi Hlo Hg Hf|Hhi Hlo Hg|Hwin Hg
                |g e Hwin Hg Hgap Hf|g Hwin Hg Hgap].

(** *** What a flush puts out *)

Lemma flushed_group (n i : nat) (st : LoopState Patch) (g : Group)
    (e : HistoryEntry Patch) :
  groupOk' n st -> group st = Some g ->
  flushed' i g (current st) = Returned e ->
  timestamp e = lastTime g /\ inWindow lo hi e = true
  /\ exists e0, (n <= lastTimeIndex g)%nat
                /\ nth_error history (lastTimeIndex g) = Some e0
                /\ timestamp e0 = timestamp e.
Proof.
  intros Hok Hg Hf. destruct (Hok g Hg) as [Hle [e0 [He0 [Ht Hwin]]]].
  pose proof (flushed_timestamp i g (current st) e e0 He0 Ht Hf) as Hte.
  split; [exact Hte|]. split.
  - rewrite <- Hwin. apply inWindow_timestamp. congruence.
  - exists e0. repeat split; auto. congruence.
Qed.

Lemma finish_group (st : LoopState Patch) (out : list (HistoryEntry Patch)) :
  groupOk' 0 st -> finish' st = Returned out ->
  out = newHistory st /\ group st = None
  \/ exists g e e0, group st = Some g /\ out = e :: newHistory st
                    /\ timestamp e = lastTime g /\ inWindow lo hi e = true
                    /\ nth_error history (lastTimeIndex g) = Some e0
                    /\ timestamp e0 = timestamp e.
Proof.
  intros Hok Hfin. destruct (group st) as [g|] eqn:Hg.
  - right. destruct (finish_timestamp st g out Hok Hg Hfin) as [e [-> Ht]].
    destruct (Hok g Hg) as [_ [e0 [He0 [Ht0 Hwin]]]].
    exists g, e, e0. repeat split; auto; try congruence.
    rewrite <- Hwin. apply inWindow_timestamp. congruence.
  - left. unfold finish in Hfin. rewrite Hg in Hfin. now inversion Hfin.
Qed.

Lemma outsideWindow_iff (entry : HistoryEntry Patch) :
  outsideWindow lo hi entry = true
  <-> hi < timestamp entry \/ timestamp entry < lo.
Proof.
  unfold outsideWindow. rewrite orb_true_iff, Z.gtb_ltb, !Z.ltb_lt. tauto.
Qed.

Lemma inWindow_iff (entry : HistoryEntry Patch) :
  inWindow lo hi entry = true <-> lo <= timestamp entry <= hi.
Proof. unfold inWindow. rewrite andb_true_iff, !Z.leb_le. tauto. Qed.

Lemma filter_outside_in (entry : HistoryEntry Patch)
    (l : list (HistoryEntry Patch)) :
  inWindow lo hi entry = true ->
  filter (outsideWindow lo hi) (entry :: l) = filter (outsideWindow lo hi) l.
Proof. intros H. simpl. now rewrite outsideWindow_inWindow, H. Qed.

Lemma filter_outside_out (entry : HistoryEntry Patch)
    (l : list (HistoryEntry Patch)) :
  hi < timestamp entry \/ timestamp entry < lo ->
  filter (outsideWindow lo hi) (entry :: l)
  = entry :: filter (outsideWindow lo hi) l.
Proof. intros H. simpl. apply outsideWindow_iff in H. now rewrite H. Qed.

(** *** Records outside the window *)

Lemma outside_loop (n : nat) (st st' : LoopState Patch) :
  groupOk' n st ->
  filter (outsideWindow lo hi) (newHistory st)
  = filter (outsideWindow lo hi) (skipn n history) ->
  loop' n st = Returned st' ->
  groupOk' 0 st'
  /\ filter (outsideWindow lo hi) (newHistory st')
     = filter (outsideWindow lo hi) history.
Proof.
  intros Hok HI Hloop.
  apply (loop_invariant_ok
           (fun n st => filter (outsideWindow lo hi) (newHistory st)
                        = filter (outsideWindow lo hi) (skipn n history)))
    with (n := n) (st := st); auto.
  clear. intros i entry st st' He Hok Hok' HI Hcase.
  rewrite (skipn_nth_error _ _ _ He).
  step_branches Hcase; simpl newHistory.
  - rewrite !(filter_outside_out entry) by auto. now rewrite HI.
  - destruct (flushed_group _ _ _ _ _ Hok Hg Hf) as [_ [Hin _]].
    rewrite !(filter_outside_out entry) by auto.
    rewrite (filter_outside_in e) by exact Hin. now rewrite HI.
  - rewrite !(filter_outside_out entry) by auto. now rewrite HI.
  - rewrite filter_outside_in by (now apply inWindow_iff). exact HI.
  - destruct (flushed_group _ _ _ _ _ Hok Hg Hf) as [_ [Hin _]].
    rewrite (filter_outside_in e) by exact Hin.
    rewrite filter_outside_in by (now apply inWindow_iff). exact HI.
  - rewrite filter_outside_in by (now apply inWindow_iff). exact HI.
Qed.

Lemma outside_run (text : ScriptText) (out : list (HistoryEntry Patch)) :
  (st <- loop' (List.length history)
               {| newHistory := []; current := text; group := None |} ;;
   finish' st) = Returned out ->
  filter (outsideWindow lo hi) out = filter (outsideWindow lo hi) history.
Proof.
  destruct (loop' (List.length history) _) as [st| |] eqn:Hloop; simpl;
    try discriminate.
  intros Hfin.
  apply outside_loop in Hloop; [|apply groupOk_start|].
  - destruct Hloop as [Hok HI].
    destruct (finish_group st out Hok Hfin)
      as [[-> _]|[g [e [e0 [_ [-> [_ [Hin _]]]]]]]].
    + exact HI.
    + now rewrite filter_outside_in.
  - simpl. now rewrite skipn_all.
Qed.

(** *** Buckets *)

Lemma bucket_loop (n : nat) (st st' : LoopState Patch) :
  groupOk' n st ->
  neighbours (bucketApart ival lo hi) (newHistory st) = true ->
  (forall h, hd_error (newHistory st) = Some h -> inWindow lo hi h = true ->
             exists g, group st = Some g /\ ival < timestamp h - lastTime g) ->
  loop' n st = Returned st' ->
  groupOk' 0 st'
  /\ neighbours (bucketApart ival lo hi) (newHistory st') = true
  /\ (forall h, hd_error (newHistory st') = Some h ->
                inWindow lo hi h = true ->
                exists g, group st' = Some g
                          /\ ival < timestamp h - lastTime g).
Proof.
  intros Hok HN HH Hloop.
  apply (loop_invariant_ok
           (fun (_ : nat) st =>
              neighbours (bucketApart ival lo hi) (newHistory st) = true
              /\ (forall h, hd_error (newHistory st) = Some h ->
                            inWindow lo hi h = true ->
                            exists g, group st = Some g
                                      /\ ival < timestamp h - lastTime g)))
    with (n := n) (st := st); auto.
  clear. intros i entry st st' He Hok Hok' [HN HH] Hcase.
  assert (Hout : (hi < timestamp entry \/ timestamp entry < lo) ->
                 inWindow lo hi entry = false).
  { intros H. apply outsideWindow_iff in H.
    rewrite outsideWindow_inWindow in H. now destruct (inWindow lo hi entry). }
  assert (Hfront : forall g e, group st = Some g ->
                     timestamp e = lastTime g ->
                     neighbours (bucketApart ival lo hi) (e :: newHistory st)
                     = true).
  { intros g e Hg Hte. apply neighbours_cons; [|exact HN].
    intros b Hb. unfold bucketApart.
    destruct (inWindow lo hi e); [|reflexivity].
    destruct (inWindow lo hi b) eqn:Hwb; [|reflexivity]. simpl.
    destruct (HH b Hb Hwb) as [g' [Hg' Hgap]].
    apply Z.ltb_lt. assert (g' = g) by congruence. subst. lia. }
  assert (Hskip : forall l, (hi < timestamp entry \/ timestamp entry < lo) ->
                    neighbours (bucketApart ival lo hi) l = true ->
                    neighbours (bucketApart ival lo hi) (entry :: l) = true).
  { intros l Ho Hl. apply neighbours_cons; [|exact Hl].
    intros b _. unfold bucketApart. now rewrite (Hout Ho). }
  step_branches Hcase;
    simpl newHistory; simpl group; simpl hd_error.
  - split; [now apply Hskip; auto|].
    intros h Hh Hwh. inversion Hh; subst. rewrite Hout in Hwh by auto.
    discriminate.
  - destruct (flushed_group _ _ _ _ _ Hok Hg Hf) as [Hte _].
    split; [apply Hskip; eauto|].
    intros h Hh Hwh. inversion Hh; subst. rewrite Hout in Hwh by auto.
    discriminate.
  - split; [now apply Hskip; auto|].
    intros h Hh Hwh. inversion Hh; subst. rewrite Hout in Hwh by auto.
    discriminate.
  - split; [exact HN|]. intros h Hh Hwh.
    destruct (HH h Hh Hwh) as [g [Hg' _]]. congruence.
  - destruct (flushed_group _ _ _ _ _ Hok Hg Hf) as [Hte _].
    split; [eauto|]. intros h Hh Hwh. inversion Hh; subst.
    eexists. split; [reflexivity|]. simpl. lia.
  - split; [exact HN|]. intros h Hh Hwh.
    destruct (HH h Hh Hwh) as [g' [Hg' Hgap']]. exists g'. split; congruence.
Qed.

Lemma bucket_run (text : ScriptText) (out : list (HistoryEntry Patch)) :
  (st <- loop' (List.length history)
               {| newHistory := []; current := text; group := None |} ;;
   finish' st) = Returned out ->
  neighbours (bucketApart ival lo hi) out = true.
Proof.
  destruct (loop' (List.length history) _) as [st| |] eqn:Hloop; simpl;
    try discriminate.
  intros Hfin.
  apply bucket_loop in Hloop;
    [|apply groupOk_start|reflexivity|simpl; discriminate].
  destruct Hloop as [Hok [HN HH]].
  destruct (finish_group st out Hok Hfin)
    as [[-> _]|[g [e [e0 [Hg [-> [Hte _]]]]]]]; [exact HN|].
  apply neighbours_cons; [|exact HN].
  intros b Hb. unfold bucketApart.
  destruct (inWindow lo hi e); [|reflexivity].
  destruct (inWindow lo hi b) eqn:Hwb; [|reflexivity]. simpl.
  destruct (HH b Hb Hwb) as [g' [Hg' Hgap]].
  apply Z.ltb_lt. assert (g' = g) by congruence. subst. lia.
Qed.

(** *** Order of the output *)

(** The first record put out so far carries the timestamp of a record of
    the log at index [m] or later. *)
Local Abbreviation headFrom m l :=
  (forall h : HistoryEntry Patch, hd_error l = Some h ->
     exists k e, (m <= k)%nat /\ nth_error history k = Some e
                 /\ timestamp e = timestamp h).

Lemma ascending_cons (m j : nat) (a e : HistoryEntry Patch)
    (l : list (HistoryEntry Patch)) :
  ascending history = true ->
  nth_error history j = Some e -> timestamp e = timestamp a ->
  (j <= m)%nat -> headFrom m l ->
  ascending l = true -> ascending (a :: l) = true.
Proof.
  intros Hasc He Hta Hjm Hhead Hl. apply neighbours_cons; [|exact Hl].
  intros b Hb. destruct (Hhead b Hb) as [k [eb [Hk [Heb Htb]]]].
  apply Z.leb_le. rewrite <- Hta, <- Htb.
  apply (ascending_nth history j k); auto. lia.
Qed.

Lemma ascending_loop (n : nat) (st st' : LoopState Patch) :
  ascending history = true ->
  groupOk' n st ->
  ascending (newHistory st) = true ->
  headFrom (match group st with Some g => lastTimeIndex g | None => n end)
           (newHistory st) ->
  loop' n st = Returned st' ->
  groupOk' 0 st'
  /\ ascending (newHistory st') = true
  /\ headFrom (match group st' with
               | Some g => lastTimeIndex g
               | None => 0%nat
               end) (newHistory st').
Proof.
  intros Hasc Hok HA HH Hloop.
  apply (loop_invariant_ok
           (fun n st =>
              ascending (newHistory st) = true
              /\ headFrom (match group st with
                           | Some g => lastTimeIndex g
                           | None => n
                           end) (newHistory st)))
    with (n := n) (st := st); auto.
  clear - Hasc. intros i entry st st' He Hok Hok' [HA HH] Hcase.
  step_branches Hcase;
    simpl newHistory; simpl group; simpl hd_error.
  - destruct (group st) as [g|] eqn:Hg.
    + exfalso. destruct (Hok g Hg) as [Hle [e0 [He0 [Ht Hwin]]]].
      apply inWindow_iff in Hwin.
      pose proof (ascending_nth history i (lastTimeIndex g) entry e0 Hasc
                    ltac:(lia) He He0). lia.
    + split.
      * apply (ascending_cons (S i) i entry entry); auto.
      * intros h Hh. inversion Hh; subst. exists i, h. auto.
  - destruct (flushed_group _ _ _ _ _ Hok Hg Hf)
      as [Hte [_ [e0 [Hle [He0 Ht0]]]]].
    rewrite Hg in HH. simpl in HH. split.
    + apply (ascending_cons (lastTimeIndex g) i entry entry); auto; [lia| |].
      * intros h Hh. inversion Hh; subst. exists (lastTimeIndex g), e0. auto.
      * apply (ascending_cons (lastTimeIndex g) (lastTimeIndex g) e e0); auto.
    + intros h Hh. inversion Hh; subst. exists i, h. auto.
  - rewrite Hg in HH. simpl in HH. split.
    + apply (ascending_cons (S i) i entry entry); auto.
    + intros h Hh. inversion Hh; subst. exists i, h. auto.
  - rewrite Hg in HH. simpl in HH. split; [exact HA|].
    intros h Hh. destruct (HH h Hh) as [k [e [Hk Hrest]]].
    exists k, e. split; [simpl; lia | exact Hrest].
  - destruct (flushed_group _ _ _ _ _ Hok Hg Hf)
      as [Hte [_ [e0 [Hle [He0 Ht0]]]]].
    rewrite Hg in HH. simpl in HH. split.
    + apply (ascending_cons (lastTimeIndex g) (lastTimeIndex g) e e0); auto.
    + intros h Hh. inversion Hh; subst. exists (lastTimeIndex g), e0.
      split; [simpl; lia | auto].
  - rewrite Hg in HH. simpl in HH. split; [exact HA | exact HH].
Qed.

Lemma ascending_run (text : ScriptText) (out : list (HistoryEntry Patch)) :
  ascending history = true ->
  (st <- loop' (List.length history)
               {| newHistory := []; current := text; group := None |} ;;
   finish' st) = Returned out ->
  ascending out = true.
Proof.
  intros Hasc.
  destruct (loop' (List.length history) _) as [st| |] eqn:Hloop; simpl;
    try discriminate.
  intros Hfin.
  apply ascending_loop in Hloop;
    [|exact Hasc|apply groupOk_start|reflexivity|simpl; discriminate].
  destruct Hloop as [Hok [HA HH]].
  destruct (finish_group st out Hok Hfin)
    as [[-> _]|[g [e [e0 [Hg [-> [Hte [_ [He0 Ht0]]]]]]]]]; [exact HA|].
  rewrite Hg in HH.
  apply (ascending_cons (lastTimeIndex g) (lastTimeIndex g) e e0); auto.
Qed.

(** *** Outcomes *)

Lemma run_outcome (text : ScriptText) :
  (exists out,
      (st <- loop' (List.length history)
                   {| newHistory := []; current := text; group := None |} ;;
       finish' st) = Returned out)
  \/ (st <- loop' (List.length history)
                  {| newHistory := []; current := text; group := None |} ;;
      finish' st) = Thrown (TypeError "changes").
Proof.
  destruct (loop_outcome (List.length history)
              {| newHistory := []; current := text; group := None |}
              (Nat.le_refl _) (groupOk_start text)) as [[st [-> Hok]]| ->];
    simpl; [|now right].
  apply finish_outcome, Hok.
Qed.

End CompactorFacts.

(** ** collapseHistory as a whole *)

Section CollapseFacts.

Context {Patch : Type}.
Variable env : Ambient.
Variable diff : string -> string -> Patch.
Variable patch : Patch -> option string -> string.

Lemma maxTimeOf_nonempty (history : list (HistoryEntry Patch))
    (options : CollapseHistoryOptions) :
  history <> [] -> exists t, maxTimeOf history options = Returned t.
Proof.
  intros Hne. unfold maxTimeOf. destruct (maxTime options); [eauto|].
  destruct history as [|e rest]; [congruence|].
  destruct (nth_error (e :: rest) (List.length (e :: rest) - 1)) eqn:Hn;
    [eauto|].
  apply nth_error_None in Hn. simpl in Hn. lia.
Qed.

Lemma maxTimeOf_outcome (history : list (HistoryEntry Patch))
    (options : CollapseHistoryOptions) :
  (exists t, maxTimeOf history options = Returned t)
  \/ maxTimeOf history options = Thrown (TypeError "timestamp").
Proof.
  unfold maxTimeOf. destruct (maxTime options); [eauto|].
  destruct history as [|e rest]; [now right|].
  destruct (nth_error (e :: rest) (List.length (e :: rest) - 1)); eauto.
Qed.

(** A sorted log whose neighbours are more than [interval] apart comes
    back as it is, whatever the window. *)
Lemma collapse_coarse_log (history : list (HistoryEntry Patch))
    (text : ScriptText) (options : CollapseHistoryOptions) :
  history <> [] -> ascending history = true ->
  coarse (interval options) history = true ->
  collapseHistory env history text options diff patch = Returned history.
Proof.
  intros Hne Hasc Hcoarse. unfold collapseHistory.
  destruct (maxTimeOf_nonempty history options Hne) as [t ->]. simpl.
  now apply coarse_run.
Qed.

(** No run stores [undefined] in the log it builds, and a run on a log
    that is not empty either returns or throws on [.changes]. *)
Lemma collapseHistory_outcome (history : list (HistoryEntry Patch))
    (text : ScriptText) (options : CollapseHistoryOptions) :
  history <> [] ->
  (exists out,
      collapseHistory env history text options diff patch = Returned out)
  \/ collapseHistory env history text options diff patch
     = Thrown (TypeError "changes").
Proof.
  intros Hne. unfold collapseHistory.
  destruct (maxTimeOf_nonempty history options Hne) as [t ->]. simpl.
  apply run_outcome.
Qed.

Lemma collapseHistory_no_undefined_slot (history : list (HistoryEntry Patch))
    (text : ScriptText) (options : CollapseHistoryOptions) :
  collapseHistory env history text options diff patch <> UndefinedSlot.
Proof.
  unfold collapseHistory.
  destruct (maxTimeOf_outcome history options) as [[t ->]| ->]; simpl;
    [|discriminate].
  destruct (run_outcome env history diff patch (interval options)
              (minTimeOf options) t text) as [[out ->]| ->]; discriminate.
Qed.

Lemma coarse_weaken (a b : Z) (history : list (HistoryEntry Patch)) :
  a <= b -> coarse b history = true -> coarse a history = true.
Proof.
  intros Hab Hb. apply nth_neighbours. intros i x y Hx Hy.
  pose proof (neighbours_nth _ _ _ _ _ Hb Hx Hy) as H.
  apply Z.ltb_lt in H. apply Z.ltb_lt. lia.
Qed.

Lemma coarse_ascending (a : Z) (history : list (HistoryEntry Patch)) :
  0 <= a -> coarse a history = true -> ascending history = true.
Proof.
  intros Ha Hc. apply nth_neighbours. intros i x y Hx Hy.
  pose proof (neighbours_nth _ _ _ _ _ Hc Hx Hy) as H.
  apply Z.ltb_lt in H. apply Z.leb_le. lia.
Qed.

End CollapseFacts.

(** * The claims *)

(** C1.  A non-empty log sorted ascending by timestamp in which every two
    adjacent records are more than [interval] apart is returned unchanged by
    [collapseHistory] with [minTime = 0] and [maxTime] the timestamp of the
    last record: the result is the log itself, so every record is the
    original one with its original changes, and no record is computed by
    [diffScriptText]. *)
Theorem collapseHistory_coarse_unchanged {Patch : Type} (env : Ambient)
    (history : list (HistoryEntry Patch)) (text : ScriptText) (gap : Z)
    (diff : string -> string -> Patch)
    (patch : Patch -> option string -> string) :
  history <> [] ->
  ascending history = true ->
  coarse gap history = true ->
  collapseHistory env history text
    {| interval := gap; minTime := Some 0;
       maxTime := Some (lastTimestamp history) |} diff patch
  = Returned history.
Proof.
  intros Hne Hasc Hcoarse. now apply collapse_coarse_log.
Qed.

Lemma collapseHistory_coarse_unchanged_witness :
  collapseHistory someEnv sparseLog [("a.ts"%string, "c3"%string)]
    {| interval := 50; minTime := Some 0;
       maxTime := Some (lastTimestamp sparseLog) |} targetText replaceWith
  = Returned sparseLog.
Proof.
  apply (collapseHistory_coarse_unchanged someEnv sparseLog
           [("a.ts"%string, "c3"%string)] 50 targetText replaceWith).
  - discriminate.
  - reflexivity.
  - reflexivity.
Defined.

(** C2.  Reversibility.  If the callbacks satisfy
    [patch(diff(a, b), a) = b] for all strings and [diffScriptText(prev, S)]
    returns a record [R], then [applyDiff(S, R)] agrees with [prev] on every
    tracked file: each tracked file of [prev] is there with the content it
    has in [prev], and no tracked file that [prev] lacks is there. *)
Theorem diffScriptText_applyDiff_reversible {Patch : Type} (env : Ambient)
    (prev S : ScriptText) (diff : string -> string -> Patch)
    (patch : Patch -> option string -> string) (R : HistoryEntry Patch) :
  wellFormed prev ->
  (forall a b, patch (diff a b) (Some a) = b) ->
  diffScriptText env prev S diff = Some R ->
  (forall file content,
      tracked file = true -> get prev file = Some content ->
      get (applyDiff S R patch) file = Some content)
  /\ (forall file,
         tracked file = true -> get prev file = None ->
         get (applyDiff S R patch) file = None).
Proof.
  intros Hwf Hround HR.
  pose proof (applyDiff_diffChanges patch diff env prev S R Hround Hwf HR)
    as Hsame.
  split.
  - intros file content Ht Hp. now rewrite (Hsame file Ht).
  - intros file Ht Hp. now rewrite (Hsame file Ht).
Qed.

Lemma diffScriptText_applyDiff_reversible_witness :
  get (applyDiff newerSnapshot olderToNewer replaceWith) "a.ts"
  = Some "1"%string
  /\ get (applyDiff newerSnapshot olderToNewer replaceWith) "b.py"
     = Some "2"%string
  /\ get (applyDiff newerSnapshot olderToNewer replaceWith) "d.jres" = None.
Proof.
  destruct (diffScriptText_applyDiff_reversible someEnv olderSnapshot
              newerSnapshot targetText replaceWith olderToNewer)
    as [Hkept Hgone].
  - unfold wellFormed. simpl.
    repeat (constructor; [simpl; intuition discriminate|]). constructor.
  - reflexivity.
  - reflexivity.
  - split; [|split].
    + apply Hkept; reflexivity.
    + apply Hkept; reflexivity.
    + apply Hgone; reflexivity.
Defined.

(** C3.  Window boundary.  Every record of the log whose timestamp is
    greater than [maxTime] or less than [minTime] is in the output of
    [collapseHistory] as it is in the log, and the records of the output
    outside the window are exactly those of the log, in the order of the
    log.  ([hi] is [maxTime] after its default is filled in.) *)
Theorem collapseHistory_outside_window_verbatim {Patch : Type} (env : Ambient)
    (history : list (HistoryEntry Patch)) (text : ScriptText)
    (options : CollapseHistoryOptions) (diff : string -> string -> Patch)
    (patch : Patch -> option string -> string) (hi : Z)
    (out : list (HistoryEntry Patch)) :
  maxTimeOf history options = Returned hi ->
  collapseHistory env history text options diff patch = Returned out ->
  (forall e, In e history ->
             outsideWindow (minTimeOf options) hi e = true -> In e out)
  /\ filter (outsideWindow (minTimeOf options) hi) out
     = filter (outsideWindow (minTimeOf options) hi) history.
Proof.
  intros Hmax. unfold collapseHistory. rewrite Hmax. simpl. intros Hrun.
  apply outside_run in Hrun. split; [|exact Hrun].
  intros e Hin Hout.
  assert (H : In e (filter (outsideWindow (minTimeOf options) hi) history))
    by (apply filter_In; auto).
  rewrite <- Hrun in H. now apply filter_In in H.
Qed.

Lemma collapseHistory_outside_window_verbatim_witness :
  (forall e, In e windowLog -> outsideWindow 100 300 e = true ->
             In e windowCollapsed)
  /\ filter (outsideWindow 100 300) windowCollapsed
     = filter (outsideWindow 100 300) windowLog.
Proof.
  apply (collapseHistory_outside_window_verbatim someEnv windowLog windowText
           windowOptions targetText replaceWith 300 windowCollapsed).
  - reflexivity.
  - reflexivity.
Defined.

(** C4.  Bucket bound.  In the output of [collapseHistory], two consecutive
    records whose timestamps both lie in [[minTime, maxTime]] are more than
    [interval] apart, the later one after the earlier one; so their
    timestamps never differ by less than [interval], at the edges of the
    window as elsewhere. *)
Theorem collapseHistory_bucket_bound {Patch : Type} (env : Ambient)
    (history : list (HistoryEntry Patch)) (text : ScriptText)
    (options : CollapseHistoryOptions) (diff : string -> string -> Patch)
    (patch : Patch -> option string -> string) (hi : Z)
    (out : list (HistoryEntry Patch)) :
  maxTimeOf history options = Returned hi ->
  collapseHistory env history text options diff patch = Returned out ->
  forall i a b,
    nth_error out i = Some a -> nth_error out (S i) = Some b ->
    inWindow (minTimeOf options) hi a = true ->
    inWindow (minTimeOf options) hi b = true ->
    interval options < timestamp b - timestamp a
    /\ ~ Z.abs (timestamp b - timestamp a) < interval options.
Proof.
  intros Hmax. unfold collapseHistory. rewrite Hmax. simpl. intros Hrun.
  apply bucket_run in Hrun. intros i a b Ha Hb Hwa Hwb.
  pose proof (neighbours_nth _ _ _ _ _ Hrun Ha Hb) as H.
  unfold bucketApart in H. rewrite Hwa, Hwb in H. simpl in H.
  apply Z.ltb_lt in H. lia.
Qed.

Lemma collapseHistory_bucket_bound_witness :
  interval windowOptions
  < timestamp (editOf 300 "1.0.0" "a.ts" "c4"%string)
    - timestamp (editOf 110 "1.0.0" "a.ts" "c2"%string)
  /\ ~ Z.abs (timestamp (editOf 300 "1.0.0" "a.ts" "c4"%string)
              - timestamp (editOf 110 "1.0.0" "a.ts" "c2"%string))
        < interval windowOptions.
Proof.
  apply (collapseHistory_bucket_bound someEnv windowLog windowText
           windowOptions targetText replaceWith 300 windowCollapsed
           eq_refl eq_refl 2%nat
           (editOf 110 "1.0.0" "a.ts" "c2"%string)
           (editOf 300 "1.0.0" "a.ts" "c4"%string));
    reflexivity.
Defined.

(** C8.  If the timestamps of the log are non-decreasing, so are those of
    the output of [collapseHistory], the records it computes included. *)
Theorem collapseHistory_ascending {Patch : Type} (env : Ambient)
    (history : list (HistoryEntry Patch)) (text : ScriptText)
    (options : CollapseHistoryOptions) (diff : string -> string -> Patch)
    (patch : Patch -> option string -> string)
    (out : list (HistoryEntry Patch)) :
  ascending history = true ->
  collapseHistory env history text options diff patch = Returned out ->
  ascending out = true.
Proof.
  intros Hasc. unfold collapseHistory.
  destruct (maxTimeOf history options) as [hi| |]; simpl; try discriminate.
  now apply ascending_run.
Qed.

Lemma collapseHistory_ascending_witness : ascending windowCollapsed = true.
Proof.
  apply (collapseHistory_ascending someEnv windowLog windowText windowOptions
           targetText replaceWith windowCollapsed); reflexivity.
Defined.

(** ** The scenario of the specification *)

Section ScenarioFacts.

Context {Patch : Type}.
Variable env : Ambient.
Variable diff : string -> string -> Patch.
Variable patch : Patch -> option string -> string.
Hypothesis round : forall a b, patch (diff a b) (Some a) = b.

Lemma applyDiff_editOf (t : Z) (v c c' : string) :
  applyDiff [("a.ts"%string, c)] (editOf t v "a.ts" (diff c c')) patch
  = [("a.ts"%string, c')].
Proof. unfold applyDiff. simpl. now rewrite round. Qed.

Lemma diffScriptText_single (c c' : string) :
  c <> c' ->
  diffScriptText env [("a.ts"%string, c)] [("a.ts"%string, c')] diff
  = Some {| timestamp := dateNow env;
            editorVersion := targetVersion env;
            changes := [edited "a.ts" (diff c' c)] |}.
Proof.
  intros Hne. unfold diffScriptText, diffChanges. simpl.
  apply String.eqb_neq in Hne. now rewrite Hne.
Qed.

End ScenarioFacts.

(** C5, as the code has it.  For the log of five records at 0, 100, 110,
    300 and 305 that each edit a.ts, with [interval = 50], [minTime = 0] and
    [maxTime = 305], and callbacks with [patch(diff(a, b), a) = b],
    [collapseHistory] returns three records when the content of a.ts
    differs before and after each merged pair: the record at 0 itself, a
    record stamped 110 that merges the records at 100 and 110, and a record
    stamped 305 that merges the records at 300 and 305. *)
Theorem scenario_three_records {Patch : Type} (env : Ambient)
    (diff : string -> string -> Patch)
    (patch : Patch -> option string -> string)
    (content version : nat -> string) :
  (forall a b, patch (diff a b) (Some a) = b) ->
  content 1%nat <> content 3%nat ->
  content 3%nat <> content 5%nat ->
  collapseHistory env (scenarioLog diff content version)
    (scenarioText content) scenarioOptions diff patch
  = Returned
      [scenarioEntry diff content version 0 0;
       editOf 110 (version 2%nat) "a.ts" (diff (content 3%nat) (content 1%nat));
       editOf 305 (version 4%nat) "a.ts" (diff (content 5%nat) (content 3%nat))].
Proof.
  intros round H13 H35.
  unfold collapseHistory, scenarioLog, scenarioText, scenarioEntry.
  do 4 (cbn -[applyDiff diffScriptText];
        rewrite ?(applyDiff_editOf diff patch round);
        unfold mergedEntry; cbn -[applyDiff diffScriptText];
        rewrite ?diffScriptText_single by assumption).
  reflexivity.
Qed.

Lemma scenario_three_records_witness :
  collapseHistory someEnv (scenarioLog targetText numbered sameVersion)
    (scenarioText numbered) scenarioOptions targetText replaceWith
  = Returned
      [editOf 0 "1.0.0" "a.ts" "c0"%string;
       editOf 110 "1.0.0" "a.ts" "c1"%string;
       editOf 305 "1.0.0" "a.ts" "c3"%string].
Proof.
  apply (scenario_three_records someEnv targetText replaceWith numbered
           sameVersion).
  - reflexivity.
  - discriminate.
  - discriminate.
Defined.

(** C5, as the specification has it, fails: the output for the scenario has
    three records, but none of them is stamped 300. *)
Lemma scenario_no_record_at_300 :
  ~ (exists out late,
        collapseHistory someEnv (scenarioLog targetText numbered sameVersion)
          (scenarioText numbered) scenarioOptions targetText replaceWith
        = Returned out
        /\ List.length out = 3%nat
        /\ In late out /\ timestamp late = 300).
Proof.
  intros [out [late [Hrun [_ [Hin Ht]]]]].
  vm_compute in Hrun. inversion Hrun; subst out. clear Hrun.
  simpl in Hin. destruct Hin as [<-|[<-|[<-|[]]]]; discriminate.
Qed.

(** C6, as the code has it.  [applyDiff] makes no check of the file an
    [edited] change names.  When the snapshot lacks the file (and the
    changes of the record name different files), [applyDiff] returns a
    snapshot in which the file holds what [patch] made of the payload and
    an [undefined] text. *)
Theorem applyDiff_edited_absent_file {Patch : Type} (text : ScriptText)
    (entry : HistoryEntry Patch) (patch : Patch -> option string -> string)
    (file : string) (p : Patch) :
  NoDup (map filename (changes entry)) ->
  In (edited file p) (changes entry) ->
  get text file = None ->
  get (applyDiff text entry patch) file = Some (patch p None).
Proof.
  exact (applyDiff_edited_absent patch text entry file p).
Qed.

Lemma applyDiff_edited_absent_file_witness :
  get (applyDiff [("b.ts"%string, "b"%string)]
         (editOf 0 "1.0.0" "a.ts" "old"%string) replaceWith) "a.ts"
  = Some "old"%string.
Proof.
  apply (applyDiff_edited_absent_file [("b.ts"%string, "b"%string)]
           (editOf 0 "1.0.0" "a.ts" "old"%string) replaceWith "a.ts"
           "old"%string).
  - simpl. constructor; [intros []|constructor].
  - simpl. now left.
  - reflexivity.
Defined.

(** C6, as the specification has it, fails: for a snapshot without a.ts and
    a record that edits a.ts, [applyDiff] returns a snapshot, with a.ts in
    it. *)
Lemma applyDiff_edited_absent_returns :
  applyDiff [("b.ts"%string, "b"%string)]
    (editOf 0 "1.0.0" "a.ts" "old"%string) replaceWith
  = [("b.ts"%string, "b"%string); ("a.ts"%string, "old"%string)].
Proof. reflexivity. Qed.

(** C7, as the code has it.  [collapseHistory] checks neither the log nor
    [interval].  For an empty log it throws a [TypeError], before anything
    is put out, when [maxTime] is not given (it reads the timestamp of a
    last record that is not there), and returns the empty log when
    [maxTime] is given.  An [interval] of 0 or less is used as it is: a log
    whose timestamps increase strictly comes back unchanged. *)
Theorem collapseHistory_unchecked_arguments {Patch : Type} (env : Ambient)
    (text : ScriptText) (options : CollapseHistoryOptions)
    (diff : string -> string -> Patch)
    (patch : Patch -> option string -> string) :
  (maxTime options = None ->
   collapseHistory env [] text options diff patch
   = Thrown (TypeError "timestamp"))
  /\ (forall t, maxTime options = Some t ->
                collapseHistory env [] text options diff patch = Returned [])
  /\ (forall history,
         history <> [] -> interval options <= 0 ->
         coarse 0 history = true ->
         collapseHistory env history text options diff patch
         = Returned history).
Proof.
  split; [|split].
  - intros Hmax. unfold collapseHistory, maxTimeOf. now rewrite Hmax.
  - intros t Hmax. unfold collapseHistory, maxTimeOf. now rewrite Hmax.
  - intros history Hne Hival Hstrict. apply collapse_coarse_log.
    + exact Hne.
    + apply (coarse_ascending 0); [lia | exact Hstrict].
    + apply (coarse_weaken (interval options) 0); assumption.
Qed.

Lemma collapseHistory_unchecked_arguments_witness :
  collapseHistory someEnv [] [("a.ts"%string, "c3"%string)]
    {| interval := 0; minTime := None; maxTime := None |}
    targetText replaceWith
  = Thrown (TypeError "timestamp")
  /\ collapseHistory someEnv sparseLog [("a.ts"%string, "c3"%string)]
       {| interval := 0; minTime := None; maxTime := None |}
       targetText replaceWith
     = Returned sparseLog.
Proof.
  destruct (collapseHistory_unchecked_arguments someEnv
              [("a.ts"%string, "c3"%string)]
              {| interval := 0; minTime := None; maxTime := None |}
              targetText replaceWith) as [Hempty [_ Hzero]].
  split.
  - apply Hempty. reflexivity.
  - apply Hzero.
    + discriminate.
    + simpl. lia.
    + reflexivity.
Defined.

(** C7, as the specification has it, fails: an empty log with [maxTime]
    given is accepted and the empty log returned, and a log is compacted
    with an [interval] of 0 and of -5. *)
Lemma collapseHistory_accepts_empty_log_and_zero_interval :
  collapseHistory someEnv (@nil (HistoryEntry string))
    [("a.ts"%string, "c3"%string)]
    {| interval := 50; minTime := None; maxTime := Some 0 |}
    targetText replaceWith
  = Returned []
  /\ collapseHistory someEnv sparseLog [("a.ts"%string, "c3"%string)]
       {| interval := 0; minTime := None; maxTime := None |}
       targetText replaceWith
     = Returned sparseLog
  /\ collapseHistory someEnv sparseLog [("a.ts"%string, "c3"%string)]
       {| interval := -5; minTime := None; maxTime := None |}
       targetText replaceWith
     = Returned sparseLog.
Proof. repeat split. Qed.

(** C9.  Every change of the record that [diffScriptText] returns names a
    tracked file.  Setting or deleting a file with an untracked name in
    either snapshot leaves the result as it is; the result is that for the
    tracked parts of the two snapshots; and it is [undefined] when the
    snapshots agree on every tracked file. *)
Theorem diffScriptText_only_tracked {Patch : Type} (env : Ambient)
    (oldVersion newVersion : ScriptText) (diff : string -> string -> Patch) :
  (forall R, diffScriptText env oldVersion newVersion diff = Some R ->
             Forall (fun c => tracked (filename c) = true) (changes R))
  /\ (forall file value,
         tracked file = false ->
         diffScriptText env oldVersion (set newVersion file value) diff
         = diffScriptText env oldVersion newVersion diff
         /\ diffScriptText env oldVersion (delete newVersion file) diff
            = diffScriptText env oldVersion newVersion diff
         /\ diffScriptText env (set oldVersion file value) newVersion diff
            = diffScriptText env oldVersion newVersion diff
         /\ diffScriptText env (delete oldVersion file) newVersion diff
            = diffScriptText env oldVersion newVersion diff)
  /\ diffScriptText env oldVersion newVersion diff
     = diffScriptText env (trackedPart oldVersion) (trackedPart newVersion) diff
  /\ (wellFormed oldVersion -> sameTracked oldVersion newVersion ->
      diffScriptText env oldVersion newVersion diff = None).
Proof.
  split; [|split; [|split]].
  - intros R HR. rewrite (diffScriptText_changes _ _ _ _ _ HR).
    apply diffChanges_tracked.
  - intros file value Ht.
    rewrite <- (diffScriptText_trackedPart env diff oldVersion newVersion).
    repeat split.
    + rewrite <- diffScriptText_trackedPart. now rewrite trackedPart_set.
    + rewrite <- diffScriptText_trackedPart. now rewrite trackedPart_delete.
    + rewrite <- diffScriptText_trackedPart. now rewrite trackedPart_set.
    + rewrite <- diffScriptText_trackedPart. now rewrite trackedPart_delete.
  - symmetry. apply diffScriptText_trackedPart.
  - intros Hwf Hsame. apply diffScriptText_none.
    now apply diffChanges_sameTracked.
Qed.

Lemma diffScriptText_only_tracked_witness :
  Forall (fun c => tracked (filename c) = true) (changes olderToNewer)
  /\ diffScriptText someEnv olderSnapshot
       (set olderSnapshot "notes.md" "rewritten") targetText
     = None.
Proof.
  split.
  - destruct (diffScriptText_only_tracked someEnv olderSnapshot newerSnapshot
                targetText) as [Hnames _].
    apply Hnames. reflexivity.
  - destruct (diffScriptText_only_tracked someEnv olderSnapshot
                (set olderSnapshot "notes.md" "rewritten") targetText)
      as [_ [_ [_ Hnone]]].
    apply Hnone.
    + unfold wellFormed. simpl.
      repeat (constructor; [simpl; intuition discriminate|]). constructor.
    + intros file Ht. rewrite get_set.
      destruct (String.eqb_spec "notes.md" file) as [<-|Hne];
        [discriminate | reflexivity].
Defined.

(** C10.  There is a log, not empty and ascending, whose records in one
    bucket cancel out, for which the flush of the group reads [.changes] of
    the [undefined] that [diffScriptText] returned and throws, at each of
    the three flushes of [collapseHistory] (after the loop, at a new bucket,
    below the window).  A flush of a group of several records returns a
    record exactly when the net difference of the group is not empty. *)
Theorem collapseHistory_cancelling_group_throws :
  (cancellingLog <> [] /\ ascending cancellingLog = true
   /\ (forall a b, replaceWith (targetText a b) (Some a) = b)
   /\ collapseHistory someEnv cancellingLog cancellingText cancellingOptions
        targetText replaceWith
      = Thrown (TypeError "changes"))
  /\ (cancellingAfter <> [] /\ ascending cancellingAfter = true
      /\ collapseHistory someEnv cancellingAfter cancellingText
           cancellingOptions targetText replaceWith
         = Thrown (TypeError "changes")
      /\ collapseHistory someEnv cancellingAfter cancellingText
           {| interval := 50; minTime := Some 50; maxTime := None |}
           targetText replaceWith
         = Thrown (TypeError "changes"))
  /\ (forall (Patch : Type) (env : Ambient) (diff : string -> string -> Patch)
             (g : Group) (current : ScriptText),
         (mergedEntry env diff g current = Thrown (TypeError "changes")
          <-> diffScriptText env current (lastTimeText g) diff = None)
         /\ ((exists e, mergedEntry env diff g current = Returned e)
             <-> diffScriptText env current (lastTimeText g) diff <> None)).
Proof.
  split; [|split].
  - repeat split. discriminate.
  - repeat split. discriminate.
  - intros Patch env diff g current. unfold mergedEntry.
    destruct (diffScriptText env current (lastTimeText g) diff) as [d|].
    + split; split; try discriminate; try congruence. eauto.
    + split; split; try reflexivity; try congruence.
      intros [e He]. discriminate.
Qed.

(** * Further properties of the code *)

(** ** More on diffScriptText *)

Lemma get_in (text : ScriptText) (file value : string) :
  get text file = Some value -> In (file, value) text.
Proof.
  induction text as [|[k v] rest IH]; simpl; [discriminate|].
  destruct (String.eqb_spec k file) as [->|Hk].
  - intros H. inversion H. now left.
  - intros H. right. now apply IH.
Qed.

Lemma get_key (text : ScriptText) (file : string) :
  In file (keys text) -> get text file <> None.
Proof.
  induction text as [|[k v] rest IH]; simpl; [contradiction|].
  destruct (String.eqb_spec k file) as [->|Hk]; [discriminate|].
  intros [Heq|Hin]; [congruence | now apply IH].
Qed.

Lemma in_keys (text : ScriptText) (file value : string) :
  In (file, value) text -> In file (keys text).
Proof.
  intros Hin. unfold keys. change file with (fst (file, value)).
  now apply in_map.
Qed.

Lemma flat_map_nil_inv {A B : Type} (f : A -> list B) (l : list A) (x : A) :
  flat_map f l = [] -> In x l -> f x = [].
Proof.
  induction l as [|a l IH]; simpl; [contradiction|].
  intros H [->|Hin]; apply app_eq_nil in H; destruct H as [Ha Hl].
  - exact Ha.
  - now apply IH.
Qed.

Section DifferMore.

Context {Patch : Type}.
Variable env : Ambient.
Variable diff : string -> string -> Patch.

Lemma diffChanges_nil_sameTracked (oldVersion newVersion : ScriptText) :
  diffChanges oldVersion newVersion diff = [] ->
  sameTracked oldVersion newVersion.
Proof.
  unfold diffChanges. intros H. apply app_eq_nil in H.
  destruct H as [Hold Hnew]. intros file Ht.
  destruct (get oldVersion file) as [ov|] eqn:Ho.
  - pose proof (flat_map_nil_inv _ _ _ Hold (get_in _ _ _ Ho)) as H.
    unfold removedOrEdited in H. rewrite Ht in H. simpl in H.
    destruct (get newVersion file) as [nv|]; [|discriminate].
    destruct (String.eqb_spec ov nv) as [->|Hne]; [reflexivity|discriminate].
  - destruct (get newVersion file) as [nv|] eqn:Hn; [|reflexivity].
    pose proof (flat_map_nil_inv _ _ _ Hnew (get_in _ _ _ Hn)) as H.
    unfold addedIn in H. rewrite Ht, Ho in H. discriminate.
Qed.

(** The file names of the first loop's changes are keys of [older], each
    at most once. *)
Lemma removedOrEdited_names (newVersion older : ScriptText) :
  wellFormed older ->
  NoDup (map filename (flat_map (removedOrEdited newVersion diff) older))
  /\ forall f, In f (map filename
                       (flat_map (removedOrEdited newVersion diff) older)) ->
               In f (keys older).
Proof.
  unfold wellFormed.
  induction older as [|[k ov] rest IH]; intros Hwf.
  - split; [constructor | contradiction].
  - change (keys ((k, ov) :: rest)) with (k :: keys rest) in Hwf |- *.
    inversion Hwf as [|? ? Hk Hrest]; subst.
    destruct (IH Hrest) as [Hnd Hsub]. cbn [flat_map]. rewrite map_app.
    assert (Hone : map filename (removedOrEdited newVersion diff (k, ov)) = []
                   \/ map filename (removedOrEdited newVersion diff (k, ov))
                      = [k]).
    { unfold removedOrEdited. destruct (tracked k); simpl; [|now left].
      destruct (get newVersion k); [|now right].
      destruct (String.eqb ov s); simpl; [now left | now right]. }
    destruct Hone as [-> | ->]; cbn [app].
    + split; [exact Hnd | intros f Hf; right; now apply Hsub].
    + split.
      * constructor; [|exact Hnd]. intros Hin. apply Hk. now apply Hsub.
      * intros f [<-|Hf]; [now left | right; now apply Hsub].
Qed.

(** Those of the second loop's changes are keys of [newer] that
    [oldVersion] lacks, each at most once. *)
Lemma addedIn_names (oldVersion newer : ScriptText) :
  wellFormed newer ->
  NoDup (map filename (flat_map (addedIn (Patch := Patch) oldVersion) newer))
  /\ forall f, In f (map filename
                       (flat_map (addedIn (Patch := Patch) oldVersion) newer)) ->
               In f (keys newer) /\ get oldVersion f = None.
Proof.
  unfold wellFormed.
  induction newer as [|[k nv] rest IH]; intros Hwf.
  - split; [constructor | contradiction].
  - change (keys ((k, nv) :: rest)) with (k :: keys rest) in Hwf |- *.
    inversion Hwf as [|? ? Hk Hrest]; subst.
    destruct (IH Hrest) as [Hnd Hsub]. cbn [flat_map]. rewrite map_app.
    assert (Hone : map filename (addedIn (Patch := Patch) oldVersion (k, nv))
                   = []
                   \/ (map filename
                         (addedIn (Patch := Patch) oldVersion (k, nv)) = [k]
                       /\ get oldVersion k = None)).
    { unfold addedIn. destruct (tracked k); simpl; [|now left].
      destruct (get oldVersion k); [now left | now right]. }
    destruct Hone as [-> | [-> Hnone]]; cbn [app].
    + split; [exact Hnd|]. intros f Hf. destruct (Hsub f Hf).
      split; [now right | assumption].
    + split.
      * constructor; [|exact Hnd]. intros Hin. apply Hk. now apply Hsub.
      * intros f [<-|Hf]; [split; [now left | assumption]|].
        destruct (Hsub f Hf). split; [now right | assumption].
Qed.

End DifferMore.

(** X1.  [diffScriptText] returns [undefined] exactly when the two
    snapshots hold the same tracked files with the same contents; in
    particular for a snapshot and itself. *)
Theorem diffScriptText_none_iff {Patch : Type} (env : Ambient)
    (oldVersion newVersion : ScriptText) (diff : string -> string -> Patch) :
  wellFormed oldVersion ->
  (diffScriptText env oldVersion newVersion diff = None
   <-> sameTracked oldVersion newVersion)
  /\ diffScriptText env oldVersion oldVersion diff = None.
Proof.
  intros Hwf. split; [split|].
  - intros H. apply diffScriptText_none in H.
    now apply (diffChanges_nil_sameTracked diff).
  - intros H. apply diffScriptText_none. now apply diffChanges_sameTracked.
  - apply diffScriptText_none. apply diffChanges_sameTracked; [exact Hwf|].
    intros file _. reflexivity.
Qed.

Lemma diffScriptText_none_iff_witness :
  (diffScriptText someEnv olderSnapshot newerSnapshot targetText = None
   <-> sameTracked olderSnapshot newerSnapshot)
  /\ diffScriptText someEnv olderSnapshot olderSnapshot targetText = None.
Proof.
  apply (diffScriptText_none_iff someEnv olderSnapshot newerSnapshot
           targetText).
  unfold wellFormed. simpl.
  repeat (constructor; [simpl; intuition discriminate|]). constructor.
Defined.

(** X2.  The changes of the record that [diffScriptText] returns name
    pairwise different files. *)
Theorem diffScriptText_distinct_files {Patch : Type} (env : Ambient)
    (oldVersion newVersion : ScriptText) (diff : string -> string -> Patch)
    (R : HistoryEntry Patch) :
  wellFormed oldVersion -> wellFormed newVersion ->
  diffScriptText env oldVersion newVersion diff = Some R ->
  NoDup (map filename (changes R)).
Proof.
  intros Hold Hnew HR. rewrite (diffScriptText_changes _ _ _ _ _ HR).
  unfold diffChanges. rewrite map_app.
  destruct (removedOrEdited_names diff newVersion oldVersion Hold)
    as [Hnd1 Hsub1].
  destruct (addedIn_names (Patch := Patch) oldVersion newVersion Hnew)
    as [Hnd2 Hsub2].
  apply NoDup_app; [exact Hnd1 | exact Hnd2 |].
  intros f Hf1 Hf2. destruct (Hsub2 f Hf2) as [_ Hnone].
  now apply (get_key oldVersion f (Hsub1 f Hf1)).
Qed.

Lemma diffScriptText_distinct_files_witness :
  NoDup (map filename (changes olderToNewer)).
Proof.
  apply (diffScriptText_distinct_files someEnv olderSnapshot newerSnapshot
           targetText olderToNewer).
  - unfold wellFormed. simpl.
    repeat (constructor; [simpl; intuition discriminate|]). constructor.
  - unfold wellFormed. simpl.
    repeat (constructor; [simpl; intuition discriminate|]). constructor.
  - reflexivity.
Defined.

Section DifferChanges.

Context {Patch : Type}.
Variable diff : string -> string -> Patch.

Lemma in_removedOrEdited (newVersion : ScriptText) (k ov : string)
    (c : FileChange Patch) :
  In c (removedOrEdited newVersion diff (k, ov))
  <-> tracked k = true
      /\ ((get newVersion k = None /\ c = removed k ov)
          \/ exists nv, get newVersion k = Some nv /\ ov <> nv
                        /\ c = edited k (diff nv ov)).
Proof.
  unfold removedOrEdited. destruct (tracked k); simpl.
  - destruct (get newVersion k) as [nv|].
    + destruct (String.eqb_spec ov nv) as [->|Hne]; simpl.
      * split; [contradiction|].
        intros [_ [[H _]|[nv' [H [Hne _]]]]]; [discriminate|congruence].
      * split.
        -- intros [<-|[]]. split; [reflexivity|]. right. now exists nv.
        -- intros [_ [[H _]|[nv' [H [_ ->]]]]]; [discriminate|].
           inversion H. now left.
    + split.
      * intros [<-|[]]. split; [reflexivity|]. now left.
      * intros [_ [[_ ->]|[nv' [H _]]]]; [now left | discriminate].
  - split; [contradiction | intros [H _]; discriminate].
Qed.

Lemma in_addedIn (oldVersion : ScriptText) (k nv : string)
    (c : FileChange Patch) :
  In c (addedIn oldVersion (k, nv))
  <-> tracked k = true /\ get oldVersion k = None /\ c = added k nv.
Proof.
  unfold addedIn. destruct (tracked k); simpl.
  - destruct (get oldVersion k); simpl.
    + split; [contradiction | intros [_ [H _]]; discriminate].
    + split; [intros [<-|[]]; auto | intros [_ [_ ->]]; now left].
  - split; [contradiction | intros [H _]; discriminate].
Qed.

Lemma in_diffChanges (oldVersion newVersion : ScriptText)
    (c : FileChange Patch) :
  In c (diffChanges oldVersion newVersion diff)
  <-> (exists k ov, In (k, ov) oldVersion
                    /\ In c (removedOrEdited newVersion diff (k, ov)))
      \/ (exists k nv, In (k, nv) newVersion
                       /\ In c (addedIn oldVersion (k, nv))).
Proof.
  unfold diffChanges. rewrite in_app_iff, !in_flat_map. split.
  - intros [[[k ov] H]|[[k nv] H]]; [left|right]; eauto.
  - intros [[k [ov H]]|[k [nv H]]]; [left|right]; eauto.
Qed.

End DifferChanges.

(** X3.  What the record of [diffScriptText] holds: a [removed] change,
    with the old content, for each tracked file of the old snapshot that
    the new one lacks; an [edited] change, with the payload
    [diff(new content, old content)], for each tracked file whose content
    differs; an [added] change, with the new content, for each tracked file
    that only the new snapshot has; and nothing else. *)
Theorem diffScriptText_changes_characterised {Patch : Type} (env : Ambient)
    (oldVersion newVersion : ScriptText) (diff : string -> string -> Patch)
    (R : HistoryEntry Patch) :
  wellFormed oldVersion -> wellFormed newVersion ->
  diffScriptText env oldVersion newVersion diff = Some R ->
  (forall f v,
      In (removed f v) (changes R)
      <-> tracked f = true /\ get oldVersion f = Some v
          /\ get newVersion f = None)
  /\ (forall f p,
         In (edited f p) (changes R)
         <-> tracked f = true
             /\ exists ov nv, get oldVersion f = Some ov
                              /\ get newVersion f = Some nv /\ ov <> nv
                              /\ p = diff nv ov)
  /\ (forall f v,
         In (added f v) (changes R)
         <-> tracked f = true /\ get oldVersion f = None
             /\ get newVersion f = Some v).
Proof.
  intros Hold Hnew HR. rewrite (diffScriptText_changes _ _ _ _ _ HR).
  split; [|split].
  - intros f v. rewrite in_diffChanges. split.
    + intros [[k [ov [Hin Hc]]]|[k [nv [Hin Hc]]]].
      * apply in_removedOrEdited in Hc.
        destruct Hc as [Ht [[Hn Heq]|[nv [_ [_ Heq]]]]]; [|discriminate].
        inversion Heq; subst. repeat split; auto.
        now apply get_in_wellFormed.
      * apply in_addedIn in Hc. destruct Hc as [_ [_ Heq]]. discriminate.
    + intros [Ht [Ho Hn]]. left. exists f, v. split; [now apply get_in|].
      apply in_removedOrEdited. split; [exact Ht|]. now left.
  - intros f p. rewrite in_diffChanges. split.
    + intros [[k [ov [Hin Hc]]]|[k [nv [Hin Hc]]]].
      * apply in_removedOrEdited in Hc.
        destruct Hc as [Ht [[_ Heq]|[nv [Hn [Hne Heq]]]]]; [discriminate|].
        inversion Heq; subst. split; [exact Ht|]. exists ov, nv.
        repeat split; auto. now apply get_in_wellFormed.
      * apply in_addedIn in Hc. destruct Hc as [_ [_ Heq]]. discriminate.
    + intros [Ht [ov [nv [Ho [Hn [Hne ->]]]]]]. left. exists f, ov.
      split; [now apply get_in|]. apply in_removedOrEdited.
      split; [exact Ht|]. right. now exists nv.
  - intros f v. rewrite in_diffChanges. split.
    + intros [[k [ov [Hin Hc]]]|[k [nv [Hin Hc]]]].
      * apply in_removedOrEdited in Hc.
        destruct Hc as [_ [[_ Heq]|[nv [_ [_ Heq]]]]]; discriminate.
      * apply in_addedIn in Hc. destruct Hc as [Ht [Ho Heq]].
        inversion Heq; subst. repeat split; auto.
        now apply get_in_wellFormed.
    + intros [Ht [Ho Hn]]. right. exists f, v. split; [now apply get_in|].
      apply in_addedIn. auto.
Qed.

Lemma diffScriptText_changes_characterised_witness :
  (In (removed "a.ts" "1") (changes olderToNewer)
   <-> tracked "a.ts" = true /\ get olderSnapshot "a.ts" = Some "1"%string
       /\ get newerSnapshot "a.ts" = None)
  /\ (In (added "notes.md" "n") (changes olderToNewer)
      <-> tracked "notes.md" = true /\ get olderSnapshot "notes.md" = None
          /\ get newerSnapshot "notes.md" = Some "n"%string).
Proof.
  destruct (diffScriptText_changes_characterised someEnv olderSnapshot
              newerSnapshot targetText olderToNewer) as [Hrem [_ Hadd]].
  - unfold wellFormed. simpl.
    repeat (constructor; [simpl; intuition discriminate|]). constructor.
  - unfold wellFormed. simpl.
    repeat (constructor; [simpl; intuition discriminate|]). constructor.
  - reflexivity.
  - split; [apply Hrem | apply Hadd].
Defined.

(** ** More on applyDiff *)

Section ApplierMore.

Context {Patch : Type}.
Variable patch : Patch -> option string -> string.

Lemma applyChange_named (text result : ScriptText) (c : FileChange Patch) :
  get (applyChange patch text result c) (filename c)
  = match c with
    | added _ _ => None
    | removed _ value => Some value
    | edited f p => Some (patch p (get text f))
    end.
Proof.
  destruct c as [f v|f v|f p]; simpl.
  - now rewrite get_delete, String.eqb_refl.
  - now rewrite get_set, String.eqb_refl.
  - now rewrite get_set, String.eqb_refl.
Qed.

Lemma fold_applyChange_named (text : ScriptText) (cs : list (FileChange Patch))
    (result : ScriptText) (c : FileChange Patch) :
  NoDup (map filename cs) -> In c cs ->
  get (fold_left (applyChange patch text) cs result) (filename c)
  = match c with
    | added _ _ => None
    | removed _ value => Some value
    | edited f p => Some (patch p (get text f))
    end.
Proof.
  intros Hnd Hin.
  destruct (in_split _ _ Hin) as [before [after Hsplit]].
  rewrite Hsplit in Hnd |- *. rewrite fold_left_app. cbn [fold_left].
  rewrite map_app in Hnd. cbn [map] in Hnd. apply NoDup_remove_2 in Hnd.
  rewrite fold_applyChange_other.
  - apply applyChange_named.
  - intros Hafter. apply Hnd. apply in_or_app. now right.
Qed.

Lemma applyChange_sameTracked (text text' result result' : ScriptText)
    (c : FileChange Patch) :
  sameTracked text text' -> sameTracked result result' ->
  sameTracked (applyChange patch text result c)
              (applyChange patch text' result' c).
Proof.
  intros Ht Hr file Hf. destruct c as [f v|f v|f p]; simpl.
  - rewrite !get_delete. destruct (String.eqb f file); [reflexivity|].
    now apply Hr.
  - rewrite !get_set. destruct (String.eqb f file); [reflexivity|].
    now apply Hr.
  - rewrite !get_set. destruct (String.eqb_spec f file) as [->|Hne].
    + now rewrite (Ht file Hf).
    + now apply Hr.
Qed.

Lemma applyDiff_sameTracked (text text' : ScriptText)
    (entry : HistoryEntry Patch) :
  sameTracked text text' ->
  sameTracked (applyDiff text entry patch) (applyDiff text' entry patch).
Proof.
  intros Ht. unfold applyDiff.
  assert (H : forall cs result result',
             sameTracked result result' ->
             sameTracked (fold_left (applyChange patch text) cs result)
                         (fold_left (applyChange patch text') cs result')).
  { induction cs as [|c cs IH]; simpl; intros result result' Hr.
    - exact Hr.
    - apply IH. now apply applyChange_sameTracked. }
  now apply H.
Qed.

End ApplierMore.

(** X4.  [applyDiff] touches only the files its record names: every other
    file of the snapshot, tracked or not, is in the result as it was, and
    a file that was not there is not there. *)
Theorem applyDiff_other_files {Patch : Type} (text : ScriptText)
    (entry : HistoryEntry Patch) (patch : Patch -> option string -> string)
    (file : string) :
  ~ In file (map filename (changes entry)) ->
  get (applyDiff text entry patch) file = get text file.
Proof.
  intros Hn. unfold applyDiff. now apply fold_applyChange_other.
Qed.

Lemma applyDiff_other_files_witness :
  get (applyDiff newerSnapshot olderToNewer replaceWith) "c.blocks"
  = Some "3"%string
  /\ get (applyDiff newerSnapshot olderToNewer replaceWith) "readme.txt"
     = Some "r"%string.
Proof.
  split.
  - apply (applyDiff_other_files newerSnapshot olderToNewer replaceWith
             "c.blocks"). simpl. intuition discriminate.
  - apply (applyDiff_other_files newerSnapshot olderToNewer replaceWith
             "readme.txt"). simpl. intuition discriminate.
Defined.

(** X5.  For a record whose changes name pairwise different files,
    [applyDiff] returns a snapshot without each [added] file, with each
    [removed] file holding the value of the change, and with each [edited]
    file holding what [patch] makes of the payload and the content the
    file has in the snapshot given. *)
Theorem applyDiff_each_change {Patch : Type} (text : ScriptText)
    (entry : HistoryEntry Patch) (patch : Patch -> option string -> string) :
  NoDup (map filename (changes entry)) ->
  (forall f v, In (added f v) (changes entry) ->
               get (applyDiff text entry patch) f = None)
  /\ (forall f v, In (removed f v) (changes entry) ->
                  get (applyDiff text entry patch) f = Some v)
  /\ (forall f p, In (edited f p) (changes entry) ->
                  get (applyDiff text entry patch) f
                  = Some (patch p (get text f))).
Proof.
  intros Hnd. unfold applyDiff. split; [|split].
  - intros f v Hin.
    exact (fold_applyChange_named patch text _ text (added f v) Hnd Hin).
  - intros f v Hin.
    exact (fold_applyChange_named patch text _ text (removed f v) Hnd Hin).
  - intros f p Hin.
    exact (fold_applyChange_named patch text _ text (edited f p) Hnd Hin).
Qed.

Lemma applyDiff_each_change_witness :
  get (applyDiff newerSnapshot olderToNewer replaceWith) "d.jres" = None
  /\ get (applyDiff newerSnapshot olderToNewer replaceWith) "a.ts"
     = Some "1"%string
  /\ get (applyDiff newerSnapshot olderToNewer replaceWith) "b.py"
     = Some (replaceWith "2" (get newerSnapshot "b.py")).
Proof.
  destruct (applyDiff_each_change newerSnapshot olderToNewer replaceWith)
    as [Hadd [Hrem Hed]].
  - simpl. repeat (constructor; [simpl; intuition discriminate|]).
    constructor.
  - split; [|split].
    + apply (Hadd "d.jres"%string "4"%string). simpl. auto.
    + apply Hrem. simpl. auto.
    + apply Hed. simpl. auto.
Defined.

(** X6.  [applyDiff] of one record to two snapshots that agree on every
    tracked file gives two snapshots that agree on every tracked file:
    untracked files never reach the tracked part of the result. *)
Theorem applyDiff_respects_tracked {Patch : Type} (text text' : ScriptText)
    (entry : HistoryEntry Patch) (patch : Patch -> option string -> string) :
  sameTracked text text' ->
  sameTracked (applyDiff text entry patch) (applyDiff text' entry patch).
Proof.
  apply applyDiff_sameTracked.
Qed.

Lemma applyDiff_respects_tracked_witness :
  sameTracked (applyDiff newerSnapshot olderToNewer replaceWith)
              (applyDiff (set newerSnapshot "readme.txt" "other")
                         olderToNewer replaceWith).
Proof.
  apply (applyDiff_respects_tracked newerSnapshot
           (set newerSnapshot "readme.txt" "other") olderToNewer replaceWith).
  intros file Ht. rewrite get_set.
  destruct (String.eqb_spec "readme.txt" file) as [<-|Hne];
    [discriminate | reflexivity].
Defined.

(** X7.  Round trip: when [diffScriptText(prev, S)] returns [R] and the
    callbacks satisfy [patch(diff(a, b), a) = b], a second
    [diffScriptText(prev, applyDiff(S, R))] finds nothing to record, and
    [applyDiff(S, R)] has every untracked file of [S] as it is in [S]. *)
Theorem diffScriptText_after_applyDiff {Patch : Type} (env : Ambient)
    (prev S : ScriptText) (diff : string -> string -> Patch)
    (patch : Patch -> option string -> string) (R : HistoryEntry Patch) :
  wellFormed prev ->
  (forall a b, patch (diff a b) (Some a) = b) ->
  diffScriptText env prev S diff = Some R ->
  diffScriptText env prev (applyDiff S R patch) diff = None
  /\ (forall file, tracked file = false ->
                   get (applyDiff S R patch) file = get S file).
Proof.
  intros Hwf Hround HR. split.
  - apply diffScriptText_none. apply diffChanges_sameTracked; [exact Hwf|].
    intros file Ht. symmetry.
    now apply (applyDiff_diffChanges patch diff env prev S R Hround Hwf HR).
  - intros file Ht. unfold applyDiff. apply fold_applyChange_other.
    intros Hin. apply in_map_iff in Hin. destruct Hin as [c [Hf Hc]].
    rewrite (diffScriptText_changes _ _ _ _ _ HR) in Hc.
    pose proof (diffChanges_tracked diff prev S) as Hall.
    rewrite Forall_forall in Hall. specialize (Hall c Hc). congruence.
Qed.

Lemma diffScriptText_after_applyDiff_witness :
  diffScriptText someEnv olderSnapshot
    (applyDiff newerSnapshot olderToNewer replaceWith) targetText = None
  /\ (forall file, tracked file = false ->
                   get (applyDiff newerSnapshot olderToNewer replaceWith) file
                   = get newerSnapshot file).
Proof.
  apply (diffScriptText_after_applyDiff someEnv olderSnapshot newerSnapshot
           targetText replaceWith olderToNewer).
  - unfold wellFormed. simpl.
    repeat (constructor; [simpl; intuition discriminate|]). constructor.
  - reflexivity.
  - reflexivity.
Defined.

(** X8.  The order of the changes in a record does not matter to
    [applyDiff] when they name pairwise different files: a record with the
    same changes in another order gives every file the same content. *)
Theorem applyDiff_order_of_changes {Patch : Type} (text : ScriptText)
    (entry entry' : HistoryEntry Patch)
    (patch : Patch -> option string -> string) :
  NoDup (map filename (changes entry)) ->
  Permutation (changes entry) (changes entry') ->
  forall file,
    get (applyDiff text entry patch) file
    = get (applyDiff text entry' patch) file.
Proof.
  intros Hnd Hperm file.
  assert (Hnd' : NoDup (map filename (changes entry'))).
  { eapply Permutation_NoDup; [|exact Hnd]. now apply Permutation_map. }
  unfold applyDiff.
  destruct (in_dec string_dec file (map filename (changes entry)))
    as [Hin|Hout].
  - apply in_map_iff in Hin. destruct Hin as [c [<- Hc]].
    rewrite (fold_applyChange_named patch text _ text c Hnd Hc).
    pose proof (Permutation_in c Hperm Hc) as Hc'.
    now rewrite (fold_applyChange_named patch text _ text c Hnd' Hc').
  - rewrite !fold_applyChange_other; [reflexivity| |exact Hout].
    intros Hin. apply Hout.
    eapply Permutation_in; [|exact Hin].
    apply Permutation_map. now apply Permutation_sym.
Qed.

Lemma applyDiff_order_of_changes_witness :
  get (applyDiff newerSnapshot olderToNewer replaceWith) "b.py"
  = get (applyDiff newerSnapshot
           {| timestamp := 1000; editorVersion := "1.0.0";
              changes := [added "d.jres" "4"; removed "a.ts" "1";
                          edited "b.py" "2"%string] |} replaceWith) "b.py".
Proof.
  apply (applyDiff_order_of_changes newerSnapshot olderToNewer
           {| timestamp := 1000; editorVersion := "1.0.0";
              changes := [added "d.jres" "4"; removed "a.ts" "1";
                          edited "b.py" "2"%string] |} replaceWith).
  - simpl. repeat (constructor; [simpl; intuition discriminate|]).
    constructor.
  - simpl. apply Permutation_sym.
    apply (Permutation_cons_app [removed "a.ts" "1"; edited "b.py" "2"%string]
             [] (added "d.jres" "4")).
    rewrite app_nil_r. apply Permutation_refl.
Defined.

(** ** More on collapseHistory *)

Section CompactorMore.

Context {Patch : Type}.
Variable env : Ambient.
Variable history : list (HistoryEntry Patch).
Variable diff : string -> string -> Patch.
Variable patch : Patch -> option string -> string.
Variables ival lo hi : Z.

Local Abbreviation step' := (step env history diff patch ival lo hi).
Local Abbreviation loop' := (loop env history diff patch ival lo hi).
Local Abbreviation flushed' := (flushed env history diff).
Local Abbreviation mergedEntry' := (mergedEntry env diff).
Local Abbreviation finish' := (finish env history diff).
Local Abbreviation groupOk' := (groupOk history lo hi).
Local Abbreviation stepCase' := (stepCase env history diff patch ival lo hi).
Local Abbreviation run' text :=
  (st <- loop' (List.length history)
               {| newHistory := []; current := text; group := None |} ;;
   finish' st).

Ltac loop_turn H :=
  destruct H as [Habove|g e Hhi Hlo Hg Hf|Hhi Hlo Hg|Hwin Hg
                |g e Hwin Hg Hgap Hf|g Hwin Hg Hgap];
  simpl newHistory; simpl group; simpl current.

(** The group was opened on the record of the log whose stamp it keeps. *)
Local Abbreviation stamped g :=
  (exists h : HistoryEntry Patch,
      nth_error history (lastTimeIndex g) = Some h
      /\ timestamp h = lastTime g /\ editorVersion h = lastVersion g).

(** A record put out is a record of the log, or carries the timestamp and
    the version of one and changes of tracked files only. *)
Local Abbreviation fromLog o :=
  (In o history
   \/ exists h : HistoryEntry Patch,
        In h history /\ timestamp o = timestamp h
        /\ editorVersion o = editorVersion h
        /\ Forall (fun c => tracked (filename c) = true) (changes o)).

Lemma mergedEntry_stamp (g : Group) (cur : ScriptText)
    (e : HistoryEntry Patch) :
  mergedEntry' g cur = Returned e ->
  timestamp e = lastTime g /\ editorVersion e = lastVersion g
  /\ changes e = diffChanges cur (lastTimeText g) diff.
Proof.
  unfold mergedEntry.
  destruct (diffScriptText env cur (lastTimeText g) diff) as [d|] eqn:Hd;
    intros H; inversion H; subst; simpl.
  repeat split. now apply diffScriptText_changes in Hd.
Qed.

Lemma mergedEntry_tracked (g : Group) (cur : ScriptText)
    (e : HistoryEntry Patch) :
  mergedEntry' g cur = Returned e ->
  Forall (fun c => tracked (filename c) = true) (changes e).
Proof.
  intros H. apply mergedEntry_stamp in H. destruct H as [_ [_ ->]].
  apply diffChanges_tracked.
Qed.

Lemma flushed_stamp (i : nat) (g : Group) (cur : ScriptText)
    (e h : HistoryEntry Patch) :
  nth_error history (lastTimeIndex g) = Some h ->
  timestamp h = lastTime g -> editorVersion h = lastVersion g ->
  flushed' i g cur = Returned e ->
  timestamp e = timestamp h /\ editorVersion e = editorVersion h
  /\ (e = h \/ Forall (fun c => tracked (filename c) = true) (changes e)).
Proof.
  intros Hh Ht Hv. unfold flushed, index.
  destruct (Z.of_nat (lastTimeIndex g) - Z.of_nat i >? 1).
  - intros H. pose proof (mergedEntry_tracked _ _ _ H) as Htr.
    apply mergedEntry_stamp in H. destruct H as [H1 [H2 _]].
    repeat split; [congruence | congruence | now right].
  - rewrite Hh. intros H. inversion H; subst. auto.
Qed.

Lemma finish_stamp (st : LoopState Patch) (g : Group)
    (out : list (HistoryEntry Patch)) (h : HistoryEntry Patch) :
  group st = Some g ->
  nth_error history (lastTimeIndex g) = Some h ->
  timestamp h = lastTime g -> editorVersion h = lastVersion g ->
  finish' st = Returned out ->
  exists e, out = e :: newHistory st
            /\ timestamp e = timestamp h /\ editorVersion e = editorVersion h
            /\ (e = h
                \/ Forall (fun c => tracked (filename c) = true) (changes e)).
Proof.
  intros Hg Hh Ht Hv. unfold finish. rewrite Hg.
  destruct (lastTimeIndex g) as [|k] eqn:Hk.
  - unfold index. rewrite Hh. simpl. intros H. inversion H; subst.
    exists h. auto.
  - destruct (mergedEntry' g (current st)) as [e| |] eqn:Hm; simpl;
      intros H; inversion H; subst.
    exists e. pose proof (mergedEntry_tracked _ _ _ Hm) as Htr.
    apply mergedEntry_stamp in Hm. destruct Hm as [H1 [H2 _]].
    repeat split; [congruence | congruence | now right].
Qed.

(** *** The log never grows *)

Lemma length_run (text : ScriptText) (out : list (HistoryEntry Patch)) :
  run' text = Returned out ->
  (List.length out <= List.length history)%nat.
Proof.
  destruct (loop' (List.length history) _) as [st| |] eqn:Hloop; simpl;
    try discriminate.
  intros Hfin.
  apply (loop_invariant env history diff patch ival lo hi
           (fun n st =>
              (List.length (newHistory st)
               + (match group st with Some _ => 1 | None => 0 end) + n
               <= List.length history)%nat)) in Hloop.
  - unfold finish in Hfin. destruct (group st) as [g|].
    + destruct (lastTimeIndex g).
      * destruct (index history 0); simpl in Hfin; inversion Hfin; subst.
        simpl. lia.
      * destruct (mergedEntry' g (current st)); simpl in Hfin;
          inversion Hfin; subst. simpl. lia.
    + inversion Hfin; subst. lia.
  - clear. intros i entry st st' He HI Hstep.
    apply step_cases in Hstep. loop_turn Hstep; simpl;
      try rewrite Hg in HI; simpl in HI; try lia.
  - simpl. lia.
Qed.

(** *** Where the records put out come from *)

Lemma fromLog_loop (n : nat) (st st' : LoopState Patch) :
  (forall o, In o (newHistory st) -> fromLog o) ->
  (forall g, group st = Some g -> stamped g) ->
  loop' n st = Returned st' ->
  (forall o, In o (newHistory st') -> fromLog o)
  /\ (forall g, group st' = Some g -> stamped g).
Proof.
  intros Hnh Hgr Hloop.
  apply (loop_invariant env history diff patch ival lo hi
           (fun (_ : nat) st =>
              (forall o, In o (newHistory st) -> fromLog o)
              /\ (forall g, group st = Some g -> stamped g)))
    with (n := n) (st := st); auto.
  clear. intros i entry st st' He [Hnh Hgr] Hstep.
  assert (Hentry : In entry history) by (eapply nth_error_In; eauto).
  assert (Hfl : forall g e, group st = Some g ->
                  flushed' i g (current st) = Returned e -> fromLog e).
  { intros g e Hg Hf. destruct (Hgr g Hg) as [h [Hh [Ht Hv]]].
    destruct (flushed_stamp i g (current st) e h Hh Ht Hv Hf)
      as [H1 [H2 [->|Htr]]].
    - left. eapply nth_error_In; eauto.
    - right. exists h. repeat split; auto. eapply nth_error_In; eauto. }
  assert (Hopen : stamped (groupAt i entry (current st))).
  { exists entry. simpl. auto. }
  apply step_cases in Hstep. loop_turn Hstep.
  - split; [|exact Hgr]. intros o [<-|Ho]; [now left | now apply Hnh].
  - split; [|discriminate].
    intros o [<-|[<-|Ho]]; [now left | eapply Hfl; eauto | now apply Hnh].
  - split; [|discriminate].
    intros o [<-|Ho]; [now left | now apply Hnh].
  - split; [exact Hnh|]. intros g' Hg'. inversion Hg'; subst. exact Hopen.
  - split.
    + intros o [<-|Ho]; [eapply Hfl; eauto | now apply Hnh].
    + intros g' Hg'. inversion Hg'; subst. exact Hopen.
  - split; [exact Hnh|]. intros g' Hg'. inversion Hg'; subst.
    now apply Hgr.
Qed.

Lemma fromLog_run (text : ScriptText) (out : list (HistoryEntry Patch)) :
  run' text = Returned out -> forall o, In o out -> fromLog o.
Proof.
  destruct (loop' (List.length history) _) as [st| |] eqn:Hloop; simpl;
    try discriminate.
  intros Hfin.
  apply fromLog_loop in Hloop; [|simpl; contradiction|simpl; discriminate].
  destruct Hloop as [Hnh Hgr].
  destruct (group st) as [g|] eqn:Hg.
  - destruct (Hgr g eq_refl) as [h [Hh [Ht Hv]]].
    destruct (finish_stamp st g out h Hg Hh Ht Hv Hfin)
      as [e [-> [H1 [H2 Hkind]]]].
    intros o [<-|Ho]; [|now apply Hnh].
    destruct Hkind as [->|Htr].
    + left. eapply nth_error_In; eauto.
    + right. exists h. repeat split; auto. eapply nth_error_In; eauto.
  - unfold finish in Hfin. rewrite Hg in Hfin. inversion Hfin; subst.
    exact Hnh.
Qed.

(** *** The newest record *)

Lemma last_loop (h : HistoryEntry Patch) (n : nat) (st st' : LoopState Patch) :
  ascending history = true ->
  nth_error history (List.length history - 1) = Some h ->
  groupOk' n st ->
  (n = List.length history /\ newHistory st = [] /\ group st = None
   \/ (n < List.length history)%nat
      /\ ((exists front o, newHistory st = front ++ [o]
                           /\ timestamp o = timestamp h
                           /\ editorVersion o = editorVersion h)
          \/ newHistory st = []
             /\ exists g, group st = Some g
                          /\ nth_error history (lastTimeIndex g) = Some h
                          /\ lastTime g = timestamp h
                          /\ lastVersion g = editorVersion h)) ->
  loop' n st = Returned st' ->
  (List.length history = 0%nat /\ newHistory st' = [] /\ group st' = None)
  \/ (exists front o, newHistory st' = front ++ [o]
                      /\ timestamp o = timestamp h
                      /\ editorVersion o = editorVersion h)
  \/ newHistory st' = []
     /\ exists g, group st' = Some g
                  /\ nth_error history (lastTimeIndex g) = Some h
                  /\ lastTime g = timestamp h
                  /\ lastVersion g = editorVersion h.
Proof.
  intros Hasc Hlast Hok HK Hloop.
  apply (loop_invariant_ok env history diff patch ival lo hi
           (fun n st =>
              n = List.length history /\ newHistory st = []
              /\ group st = None
              \/ (n < List.length history)%nat
                 /\ ((exists front o, newHistory st = front ++ [o]
                                      /\ timestamp o = timestamp h
                                      /\ editorVersion o = editorVersion h)
                     \/ newHistory st = []
                        /\ exists g, group st = Some g
                             /\ nth_error history (lastTimeIndex g) = Some h
                             /\ lastTime g = timestamp h
                             /\ lastVersion g = editorVersion h)))
    in Hloop; auto.
  - destruct Hloop as [_ [[H0 H]|[_ H]]]; [left; split; auto | right; exact H].
  - clear - Hasc Hlast. intros i entry st st' He Hok Hok' HK Hcase.
    assert (Hi : (i < List.length history)%nat)
      by (apply nth_error_Some; congruence).
    right. split; [exact Hi|].
    assert (Hcons : forall (x : HistoryEntry Patch) l,
               (exists front (o : HistoryEntry Patch), l = front ++ [o]
                                /\ timestamp o = timestamp h
                                /\ editorVersion o = editorVersion h) ->
               exists front o, x :: l = front ++ [o]
                               /\ timestamp o = timestamp h
                               /\ editorVersion o = editorVersion h).
    { intros x l [front [o [-> Hs]]]. exists (x :: front), o. auto. }
    assert (Hone : forall x : HistoryEntry Patch,
               timestamp x = timestamp h ->
               editorVersion x = editorVersion h ->
               exists front o, [x] = front ++ [o]
                               /\ timestamp o = timestamp h
                               /\ editorVersion o = editorVersion h).
    { intros x H1 H2. exists [], x. auto. }
    destruct HK as [[Hn [Hnh Hgr]]|[_ [Hfront|[Hnh [g0 [Hg0 [Hh [Ht Hv]]]]]]]].
    + (* the first turn, on the newest record *)
      assert (entry = h).
      { replace (List.length history - 1)%nat with i in Hlast by lia.
        congruence. }
      subst entry. loop_turn Hcase; try congruence; rewrite ?Hnh.
      * left. now apply Hone.
      * left. now apply Hone.
      * right. split; [reflexivity|]. eexists. split; [reflexivity|].
        simpl. auto.
    + loop_turn Hcase; left; auto.
    + loop_turn Hcase; try congruence; rewrite ?Hnh.
      * exfalso. destruct (Hok g0 Hg0) as [Hle [e0 [He0 [Hte Hwin]]]].
        unfold inWindow in Hwin. apply andb_prop in Hwin.
        destruct Hwin as [_ Hhi']. apply Z.leb_le in Hhi'.
        pose proof (ascending_nth history i (lastTimeIndex g0) entry e0 Hasc
                      ltac:(lia) He He0). lia.
      * assert (g = g0) by congruence. subst g.
        destruct (flushed_stamp i g0 (current st) e h Hh
                    (eq_sym Ht) (eq_sym Hv) Hf) as [H1 [H2 _]].
        left. exists [entry], e. auto.
      * assert (g = g0) by congruence. subst g.
        destruct (flushed_stamp i g0 (current st) e h Hh
                    (eq_sym Ht) (eq_sym Hv) Hf) as [H1 [H2 _]].
        left. now apply Hone.
      * right. split; [reflexivity|]. exists g0.
        assert (g = g0) by congruence. subst g. auto.
Qed.

Lemma last_run (text : ScriptText) (out : list (HistoryEntry Patch))
    (h : HistoryEntry Patch) :
  ascending history = true ->
  nth_error history (List.length history - 1) = Some h ->
  run' text = Returned out ->
  exists front o, out = front ++ [o] /\ timestamp o = timestamp h
                  /\ editorVersion o = editorVersion h.
Proof.
  intros Hasc Hlast.
  destruct (loop' (List.length history) _) as [st| |] eqn:Hloop; simpl;
    try discriminate.
  intros Hfin.
  assert (Hlen : (0 < List.length history)%nat).
  { destruct history; [discriminate | simpl; lia]. }
  apply (last_loop h) in Hloop; auto.
  - destruct Hloop as [[H0 _]|[[front [o [Hnh Hs]]]|[Hnh [g [Hg [Hh [Ht Hv]]]]]]].
    + lia.
    + unfold finish in Hfin. destruct (group st) as [g|].
      * destruct (lastTimeIndex g).
        -- destruct (index history 0); simpl in Hfin; inversion Hfin; subst.
           rewrite Hnh. exists (a :: front), o. auto.
        -- destruct (mergedEntry' g (current st)); simpl in Hfin;
             inversion Hfin; subst.
           rewrite Hnh. exists (a :: front), o. auto.
      * inversion Hfin; subst. now exists front, o.
    + destruct (finish_stamp st g out h Hg Hh (eq_sym Ht) (eq_sym Hv) Hfin)
        as [e [-> [H1 [H2 _]]]].
      rewrite Hnh. exists [], e. auto.
  - apply groupOk_start.
Qed.

(** *** A log with nothing to merge *)

(** The part of the log the loop has visited, in the records put out and
    the group held open. *)
Local Abbreviation visited n st :=
  (group st = None /\ newHistory st = skipn n history
   \/ exists g e, group st = Some g /\ (lastTimeIndex g = n)%nat
                  /\ nth_error history n = Some e
                  /\ lastTime g = timestamp e /\ inWindow lo hi e = true
                  /\ newHistory st = skipn (S n) history).

Lemma apart_step (i : nat) (entry : HistoryEntry Patch)
    (st : LoopState Patch) :
  ascending history = true ->
  neighbours (bucketApart ival lo hi) history = true ->
  nth_error history i = Some entry ->
  visited (S i) st ->
  exists st', step' i entry st = Returned st' /\ visited i st'.
Proof.
  intros Hasc Hapart He Hinv.
  pose proof (skipn_nth_error _ _ _ He) as Hskip.
  assert (Hsingle : forall g e, lastTimeIndex g = S i ->
                      nth_error history (S i) = Some e ->
                      flushed' i g (current st) = Returned e).
  { intros g e Hidx Hnth. unfold flushed, index. rewrite Hidx.
    destruct (Z.gtb_spec (Z.of_nat (S i) - Z.of_nat i) 1); [exfalso; lia|].
    now rewrite Hnth. }
  unfold step.
  destruct (Z.gtb_spec (timestamp entry) hi) as [Habove|Habove].
  - destruct Hinv as [[Hg Hnh]|[g [e [Hg [Hidx [Hnth [Hlt [Hwin Hnh]]]]]]]].
    + eexists. split; [reflexivity|]. left. simpl.
      split; [exact Hg | now rewrite Hnh, Hskip].
    + exfalso.
      pose proof (ascending_nth history i (S i) entry e Hasc
                    (Nat.le_succ_diag_r i) He Hnth).
      unfold inWindow in Hwin. apply andb_prop in Hwin.
      destruct Hwin as [_ Hhi]. apply Z.leb_le in Hhi. lia.
  - destruct (Z.ltb_spec (timestamp entry) lo) as [Hbelow|Hbelow].
    + destruct Hinv as [[Hg Hnh]|[g [e [Hg [Hidx [Hnth [Hlt [Hwin Hnh]]]]]]]];
        rewrite Hg.
      * eexists. split; [reflexivity|]. left. simpl.
        split; [reflexivity | now rewrite Hnh, Hskip].
      * rewrite (Hsingle g e Hidx Hnth). simpl.
        eexists. split; [reflexivity|]. left. simpl.
        split; [reflexivity|].
        now rewrite Hnh, Hskip, (skipn_nth_error _ _ _ Hnth).
    + assert (Hin : inWindow lo hi entry = true).
      { unfold inWindow. apply andb_true_intro.
        split; apply Z.leb_le; lia. }
      destruct Hinv as [[Hg Hnh]|[g [e [Hg [Hidx [Hnth [Hlt [Hwin Hnh]]]]]]]];
        rewrite Hg.
      * eexists. split; [reflexivity|]. right.
        exists (groupAt i entry (current st)), entry. simpl. auto 7.
      * pose proof (neighbours_nth _ _ _ _ _ Hapart He Hnth) as Hgap.
        unfold bucketApart in Hgap. rewrite Hin, Hwin in Hgap.
        simpl in Hgap. apply Z.ltb_lt in Hgap.
        destruct (Z.gtb_spec (lastTime g - timestamp entry) ival);
          [|exfalso; lia].
        rewrite (Hsingle g e Hidx Hnth). simpl.
        eexists. split; [reflexivity|]. right.
        exists (groupAt i entry (current st)), entry. simpl.
        rewrite Hnh, <- (skipn_nth_error _ _ _ Hnth). auto 7.
Qed.

Lemma apart_loop (n : nat) (st : LoopState Patch) :
  ascending history = true ->
  neighbours (bucketApart ival lo hi) history = true ->
  (n <= List.length history)%nat ->
  visited n st ->
  exists st', loop' n st = Returned st' /\ visited 0%nat st'.
Proof.
  intros Hasc Hapart. revert st. induction n as [|i IH]; intros st Hn Hinv.
  - now exists st.
  - assert (He : exists entry, nth_error history i = Some entry).
    { destruct (nth_error history i) eqn:He; [eauto|].
      apply nth_error_None in He. lia. }
    destruct He as [entry He]. simpl. rewrite He.
    destruct (apart_step i entry st Hasc Hapart He Hinv) as [st1 [Hs H1]].
    rewrite Hs. simpl. apply IH; [lia | exact H1].
Qed.

Lemma apart_run (text : ScriptText) :
  ascending history = true ->
  neighbours (bucketApart ival lo hi) history = true ->
  run' text = Returned history.
Proof.
  intros Hasc Hapart.
  destruct (apart_loop (List.length history)
              {| newHistory := []; current := text; group := None |}
              Hasc Hapart (Nat.le_refl _)) as [st [Hloop Hfin]].
  { left. simpl. split; [reflexivity|]. symmetry. apply skipn_all. }
  rewrite Hloop. simpl. unfold finish.
  destruct Hfin as [[Hg Hnh]|[g [e [Hg [Hidx [Hnth [_ [_ Hnh]]]]]]]];
    rewrite Hg.
  - now rewrite Hnh.
  - rewrite Hidx. unfold index. rewrite Hnth. simpl. rewrite Hnh.
    now rewrite <- (skipn_nth_error _ _ _ Hnth).
Qed.

(** *** The snapshots the output leads back to *)

Lemma sameTracked_sym (a b : ScriptText) : sameTracked a b -> sameTracked b a.
Proof. intros H file Ht. symmetry. now apply H. Qed.

Lemma sameTracked_trans (a b c : ScriptText) :
  sameTracked a b -> sameTracked b c -> sameTracked a c.
Proof. intros H1 H2 file Ht. now rewrite (H1 file Ht), (H2 file Ht). Qed.

Lemma rollBack_wellFormed (log : list (HistoryEntry Patch))
    (text : ScriptText) :
  wellFormed text -> wellFormed (rollBack log text patch).
Proof.
  intros Hwf. induction log as [|e log IH]; simpl; [exact Hwf|].
  now apply applyDiff_wellFormed.
Qed.

Lemma rollBack_cons (e : HistoryEntry Patch) (log : list (HistoryEntry Patch))
    (text : ScriptText) :
  rollBack (e :: log) text patch = applyDiff (rollBack log text patch) e patch.
Proof. reflexivity. Qed.

Section Snapshots.

Variable text : ScriptText.
Hypothesis Hasc : ascending history = true.
Hypothesis Hwf : wellFormed text.
Hypothesis Hround : forall a b, patch (diff a b) (Some a) = b.

(** The snapshot before the record at index [n]. *)
Local Abbreviation before n := (rollBack (skipn n history) text patch).

Lemma before_step (i : nat) (entry : HistoryEntry Patch) :
  nth_error history i = Some entry ->
  before i = applyDiff (before (S i)) entry patch.
Proof. intros He. now rewrite (skipn_nth_error _ _ _ He). Qed.

Lemma mergedEntry_rollBack (g : Group) (cur : ScriptText)
    (e : HistoryEntry Patch) :
  wellFormed cur ->
  mergedEntry' g cur = Returned e ->
  sameTracked (applyDiff (lastTimeText g) e patch) cur.
Proof.
  intros Hcur. unfold mergedEntry.
  destruct (diffScriptText env cur (lastTimeText g) diff) as [d|] eqn:Hd;
    intros H; inversion H; subst.
  exact (applyDiff_diffChanges patch diff env cur (lastTimeText g) d
           Hround Hcur Hd).
Qed.

Lemma flushed_rollBack (i : nat) (st : LoopState Patch) (g : Group)
    (e : HistoryEntry Patch) :
  groupOk' (S i) st -> group st = Some g ->
  sameTracked (rollBack (newHistory st) text patch)
              (before (S (lastTimeIndex g))) ->
  current st = before (S i) ->
  lastTimeText g = before (S (lastTimeIndex g)) ->
  flushed' i g (current st) = Returned e ->
  sameTracked (rollBack (e :: newHistory st) text patch) (before (S i)).
Proof.
  intros Hok Hg Hnh Hcur Htext. unfold flushed.
  destruct (Hok g Hg) as [Hle _].
  destruct (Z.gtb_spec (Z.of_nat (lastTimeIndex g) - Z.of_nat i) 1)
    as [Hmany|Hone].
  - intros Hm. rewrite rollBack_cons.
    apply sameTracked_trans with (applyDiff (lastTimeText g) e patch).
    + rewrite Htext. now apply applyDiff_sameTracked.
    + rewrite <- Hcur. apply mergedEntry_rollBack; [|exact Hm].
      rewrite Hcur. now apply rollBack_wellFormed.
  - assert (Hidx : lastTimeIndex g = S i) by lia.
    unfold index. destruct (nth_error history (lastTimeIndex g)) as [h|] eqn:Hh;
      [|discriminate].
    intros H. inversion H; subst e. rewrite rollBack_cons.
    rewrite Hidx in Hh, Hnh. rewrite (before_step (S i) h Hh).
    now apply applyDiff_sameTracked.
Qed.

Lemma snapshots_loop (n : nat) (st st' : LoopState Patch) :
  groupOk' n st ->
  (forall k, exists j,
        sameTracked (rollBack (skipn k (newHistory st)) text patch)
                    (before j)) ->
  match group st with
  | None =>
      sameTracked (rollBack (newHistory st) text patch) (before n)
      /\ (current st = before n
          \/ forall j e, (j < n)%nat -> nth_error history j = Some e ->
                         inWindow lo hi e = false)
  | Some g =>
      sameTracked (rollBack (newHistory st) text patch)
                  (before (S (lastTimeIndex g)))
      /\ current st = before n
      /\ lastTimeText g = before (S (lastTimeIndex g))
  end ->
  loop' n st = Returned st' ->
  groupOk' 0 st'
  /\ (forall k, exists j,
         sameTracked (rollBack (skipn k (newHistory st')) text patch)
                     (before j))
  /\ match group st' with
     | None => sameTracked (rollBack (newHistory st') text patch) (before 0)
     | Some g =>
         sameTracked (rollBack (newHistory st') text patch)
                     (before (S (lastTimeIndex g)))
         /\ current st' = before 0
         /\ lastTimeText g = before (S (lastTimeIndex g))
     end.
Proof.
  intros Hok Hchk Hgr Hloop.
  apply (loop_invariant_ok env history diff patch ival lo hi
           (fun n st =>
              (forall k, exists j,
                    sameTracked (rollBack (skipn k (newHistory st)) text patch)
                                (before j))
              /\ match group st with
                 | None =>
                     sameTracked (rollBack (newHistory st) text patch)
                                 (before n)
                     /\ (current st = before n
                         \/ forall j e, (j < n)%nat ->
                                        nth_error history j = Some e ->
                                        inWindow lo hi e = false)
                 | Some g =>
                     sameTracked (rollBack (newHistory st) text patch)
                                 (before (S (lastTimeIndex g)))
                     /\ current st = before n
                     /\ lastTimeText g = before (S (lastTimeIndex g))
                 end)) in Hloop; auto.
  - destruct Hloop as [Hok' [Hchk' Hgr']]. split; [exact Hok'|].
    split; [exact Hchk'|]. destruct (group st'); [exact Hgr' | tauto].
  - clear - Hasc Hwf Hround.
    intros i entry st st' He Hok Hok' [Hchk Hgr] Hcase.
    pose proof (before_step i entry He) as Hbefore.
    assert (Hcons : forall x l j0,
               (forall k, exists j,
                     sameTracked (rollBack (skipn k l) text patch) (before j)) ->
               sameTracked (rollBack (x :: l) text patch) (before j0) ->
               forall k, exists j,
                 sameTracked (rollBack (skipn k (x :: l)) text patch)
                             (before j)).
    { intros x l j0 Hl Hx [|k]; [now exists j0 | apply (Hl k)]. }
    assert (Hroll : forall l,
               sameTracked (rollBack l text patch) (before (S i)) ->
               sameTracked (rollBack (entry :: l) text patch) (before i)).
    { intros l Hl. rewrite Hbefore, rollBack_cons.
      now apply applyDiff_sameTracked. }
    assert (Hlow : timestamp entry < lo ->
                   forall j e, (j < i)%nat -> nth_error history j = Some e ->
                               inWindow lo hi e = false).
    { intros Hlo' j e Hj Hnth.
      pose proof (ascending_nth history j i e entry Hasc ltac:(lia) Hnth He).
      unfold inWindow. apply andb_false_intro1. apply Z.leb_gt. lia. }
    loop_turn Hcase; try rewrite Hg in Hgr.
    + destruct (group st) as [g|] eqn:Hg.
      * exfalso. destruct (Hok g Hg) as [Hle [e0 [He0 [Hte Hwin]]]].
        unfold inWindow in Hwin. apply andb_prop in Hwin.
        destruct Hwin as [_ Hhi']. apply Z.leb_le in Hhi'.
        pose proof (ascending_nth history i (lastTimeIndex g) entry e0 Hasc
                      ltac:(lia) He He0). lia.
      * destruct Hgr as [Hnh Hcur]. split; [|split].
        -- apply (Hcons entry _ i Hchk). now apply Hroll.
        -- now apply Hroll.
        -- destruct Hcur as [Hcur|Hlater].
           ++ left. now rewrite Hcur, Hbefore.
           ++ right. intros j e Hj. apply Hlater. lia.
    + destruct Hgr as [Hnh [Hcur Htext]].
      pose proof (flushed_rollBack i st g e Hok Hg Hnh Hcur Htext Hf) as He'.
      split; [|split].
      * apply (Hcons entry _ i); [|now apply Hroll].
        now apply (Hcons e _ (S i) Hchk).
      * now apply Hroll.
      * right. now apply Hlow.
    + destruct Hgr as [Hnh _]. split; [|split].
      * apply (Hcons entry _ i Hchk). now apply Hroll.
      * now apply Hroll.
      * right. now apply Hlow.
    + destruct Hgr as [Hnh [Hcur|Hlater]].
      * split; [exact Hchk|]. rewrite Hcur.
        repeat split; auto; now rewrite Hbefore.
      * exfalso. assert (Hin : inWindow lo hi entry = true).
        { unfold inWindow. apply andb_true_intro.
          split; apply Z.leb_le; lia. }
        rewrite (Hlater i entry (Nat.lt_succ_diag_r i) He) in Hin.
        discriminate.
    + destruct Hgr as [Hnh [Hcur Htext]].
      pose proof (flushed_rollBack i st g e Hok Hg Hnh Hcur Htext Hf) as He'.
      split; [now apply (Hcons e _ (S i) Hchk)|].
      rewrite Hcur. repeat split; auto; now rewrite Hbefore.
    + destruct Hgr as [Hnh [Hcur Htext]]. split; [exact Hchk|].
      repeat split; auto; now rewrite Hcur, Hbefore.
Qed.

Lemma snapshots_run (out : list (HistoryEntry Patch)) :
  run' text = Returned out ->
  sameTracked (rollBack out text patch) (rollBack history text patch)
  /\ forall k, exists j,
       sameTracked (rollBack (skipn k out) text patch)
                   (rollBack (skipn j history) text patch).
Proof.
  destruct (loop' (List.length history) _) as [st| |] eqn:Hloop; simpl;
    try discriminate.
  intros Hfin.
  apply snapshots_loop in Hloop.
  - destruct Hloop as [Hok [Hchk Hgr]].
    assert (Hout : sameTracked (rollBack out text patch) (before 0)).
    { unfold finish in Hfin. destruct (group st) as [g|] eqn:Hg.
      - destruct Hgr as [Hnh [Hcur Htext]].
        destruct (lastTimeIndex g) as [|k] eqn:Hidx.
        + unfold index in Hfin.
          destruct (nth_error history 0) as [h|] eqn:Hh; [|discriminate].
          simpl in Hfin. inversion Hfin; subst out. rewrite rollBack_cons.
          rewrite (before_step 0 h Hh). now apply applyDiff_sameTracked.
        + destruct (mergedEntry' g (current st)) as [e| |] eqn:Hm;
            simpl in Hfin; inversion Hfin; subst out. rewrite rollBack_cons.
          apply sameTracked_trans with (applyDiff (lastTimeText g) e patch).
          * rewrite Htext. now apply applyDiff_sameTracked.
          * rewrite <- Hcur. apply mergedEntry_rollBack; [|exact Hm].
            rewrite Hcur. now apply rollBack_wellFormed.
      - inversion Hfin; subst out. exact Hgr. }
    split; [exact Hout|].
    intros [|k]; [now exists 0%nat|].
    unfold finish in Hfin. destruct (group st) as [g|].
    + destruct (lastTimeIndex g).
      * destruct (index history 0); simpl in Hfin; inversion Hfin; subst out.
        apply (Hchk k).
      * destruct (mergedEntry' g (current st)); simpl in Hfin;
          inversion Hfin; subst out. apply (Hchk k).
    + inversion Hfin; subst out. apply (Hchk (S k)).
  - apply groupOk_start.
  - intros k. exists (List.length history). simpl.
    rewrite skipn_all. destruct k; simpl; intros file Ht; reflexivity.
  - simpl. rewrite skipn_all. simpl. split; [|now left].
    intros file Ht. reflexivity.
Qed.

End Snapshots.

(** *** A log that fits in one bucket *)

Lemma one_bucket_loop (text : ScriptText) (h : HistoryEntry Patch) (n : nat)
    (st : LoopState Patch) :
  nth_error history (List.length history - 1) = Some h ->
  (forall e, In e history ->
             lo <= timestamp e <= hi /\ timestamp h - timestamp e <= ival) ->
  (n <= List.length history)%nat ->
  newHistory st = [] ->
  current st = rollBack (skipn n history) text patch ->
  (n = List.length history /\ group st = None
   \/ (n < List.length history)%nat
      /\ exists g, group st = Some g
                   /\ lastTimeIndex g = (List.length history - 1)%nat
                   /\ lastTime g = timestamp h
                   /\ lastVersion g = editorVersion h
                   /\ lastTimeText g = text) ->
  exists st',
    loop' n st = Returned st'
    /\ newHistory st' = []
    /\ current st' = rollBack history text patch
    /\ (List.length history = 0%nat /\ group st' = None
        \/ exists g, group st' = Some g
                     /\ lastTimeIndex g = (List.length history - 1)%nat
                     /\ lastTime g = timestamp h
                     /\ lastVersion g = editorVersion h
                     /\ lastTimeText g = text).
Proof.
  intros Hlast Hall. revert st.
  induction n as [|i IH]; intros st Hn Hnh Hcur Hgr.
  - exists st. split; [reflexivity|]. split; [exact Hnh|].
    split; [exact Hcur|].
    destruct Hgr as [[Hlen Hg]|[_ Hg]]; [left; auto | now right].
  - assert (He : exists entry, nth_error history i = Some entry).
    { destruct (nth_error history i) eqn:He; [eauto|].
      apply nth_error_None in He. lia. }
    destruct He as [entry He]. simpl. rewrite He.
    destruct (Hall entry (nth_error_In _ _ He)) as [Hwin Hnear].
    assert (Hcur' : applyDiff (current st) entry patch
                    = rollBack (skipn i history) text patch).
    { now rewrite Hcur, (skipn_nth_error _ _ _ He). }
    unfold step.
    destruct (Z.gtb_spec (timestamp entry) hi); [exfalso; lia|].
    destruct (Z.ltb_spec (timestamp entry) lo); [exfalso; lia|].
    destruct Hgr as [[Hlen Hg]|[_ [g [Hg [Hidx [Ht [Hv Htext]]]]]]]; rewrite Hg.
    + simpl. apply IH; simpl; auto; [lia|].
      right. split; [lia|]. eexists. split; [reflexivity|]. simpl.
      assert (entry = h).
      { replace (List.length history - 1)%nat with i in Hlast by lia.
        congruence. }
      subst entry. repeat split; auto; [lia|].
      rewrite Hcur, Hlen, skipn_all. reflexivity.
    + destruct (Z.gtb_spec (lastTime g - timestamp entry) ival);
        [exfalso; lia|].
      simpl. apply IH; simpl; auto; [lia|].
      right. split; [lia|]. now exists g.
Qed.

Lemma one_bucket_run (text : ScriptText) (h : HistoryEntry Patch) :
  (2 <= List.length history)%nat ->
  nth_error history (List.length history - 1) = Some h ->
  (forall e, In e history ->
             lo <= timestamp e <= hi /\ timestamp h - timestamp e <= ival) ->
  run' text
  = match diffScriptText env (rollBack history text patch) text diff with
    | Some d =>
        Returned [{| timestamp := timestamp h;
                     editorVersion := editorVersion h;
                     changes := changes d |}]
    | None => Thrown (TypeError "changes")
    end.
Proof.
  intros Hlen Hlast Hall.
  destruct (one_bucket_loop text h (List.length history)
              {| newHistory := []; current := text; group := None |}
              Hlast Hall (Nat.le_refl _) eq_refl)
    as [st [Hloop [Hnh [Hcur Hgr]]]].
  - simpl. now rewrite skipn_all.
  - now left.
  - rewrite Hloop. simpl. unfold finish.
    destruct Hgr as [[H0 _]|[g [Hg [Hidx [Ht [Hv Htext]]]]]]; [lia|].
    rewrite Hg, Hidx.
    destruct (List.length history - 1)%nat as [|k] eqn:Hk; [lia|].
    unfold mergedEntry. rewrite Hcur, Htext, Ht, Hv, Hnh.
    now destruct (diffScriptText env (rollBack history text patch) text diff).
Qed.

End CompactorMore.

Lemma nth_error_last_app {A : Type} (front : list A) (o : A) :
  nth_error (front ++ [o]) (List.length (front ++ [o]) - 1) = Some o.
Proof.
  induction front as [|x front IH]; [reflexivity|].
  simpl. rewrite Nat.sub_0_r.
  replace (List.length (front ++ [o])) with
    (S (List.length (front ++ [o]) - 1)).
  - exact IH.
  - destruct front; simpl; lia.
Qed.

(** X9.  [collapseHistory] never returns more records than it was given. *)
Theorem collapseHistory_never_longer {Patch : Type} (env : Ambient)
    (history : list (HistoryEntry Patch)) (text : ScriptText)
    (options : CollapseHistoryOptions) (diff : string -> string -> Patch)
    (patch : Patch -> option string -> string)
    (out : list (HistoryEntry Patch)) :
  collapseHistory env history text options diff patch = Returned out ->
  (List.length out <= List.length history)%nat.
Proof.
  unfold collapseHistory.
  destruct (maxTimeOf history options) as [hi| |]; simpl; try discriminate.
  apply length_run.
Qed.

Lemma collapseHistory_never_longer_witness :
  (List.length windowCollapsed <= List.length windowLog)%nat.
Proof.
  apply (collapseHistory_never_longer someEnv windowLog windowText
           windowOptions targetText replaceWith windowCollapsed).
  reflexivity.
Defined.

(** X10.  Every record that [collapseHistory] returns is a record of the
    log it was given, or a record with the timestamp and the editor version
    of a record of that log whose changes all name tracked files. *)
Theorem collapseHistory_records_from_log {Patch : Type} (env : Ambient)
    (history : list (HistoryEntry Patch)) (text : ScriptText)
    (options : CollapseHistoryOptions) (diff : string -> string -> Patch)
    (patch : Patch -> option string -> string)
    (out : list (HistoryEntry Patch)) :
  collapseHistory env history text options diff patch = Returned out ->
  forall o, In o out ->
    In o history
    \/ exists h, In h history /\ timestamp o = timestamp h
                 /\ editorVersion o = editorVersion h
                 /\ Forall (fun c => tracked (filename c) = true) (changes o).
Proof.
  unfold collapseHistory.
  destruct (maxTimeOf history options) as [hi| |]; simpl; try discriminate.
  apply fromLog_run.
Qed.

Lemma collapseHistory_records_from_log_witness :
  In (editOf 110 "1.0.0" "a.ts" "c2"%string) windowLog
  \/ exists h, In h windowLog
               /\ timestamp (editOf 110 "1.0.0" "a.ts" "c2"%string)
                  = timestamp h
               /\ editorVersion (editOf 110 "1.0.0" "a.ts" "c2"%string)
                  = editorVersion h
               /\ Forall (fun c => tracked (filename c) = true)
                         (changes (editOf 110 "1.0.0" "a.ts" "c2"%string)).
Proof.
  apply (collapseHistory_records_from_log someEnv windowLog windowText
           windowOptions targetText replaceWith windowCollapsed).
  - reflexivity.
  - simpl. auto.
Defined.

(** X11.  For a log with non-decreasing timestamps, the last record that
    [collapseHistory] returns carries the timestamp and the editor version
    of the last record of the log; so the result of a log that is not empty
    is not empty. *)
Theorem collapseHistory_keeps_newest_stamp {Patch : Type} (env : Ambient)
    (history : list (HistoryEntry Patch)) (text : ScriptText)
    (options : CollapseHistoryOptions) (diff : string -> string -> Patch)
    (patch : Patch -> option string -> string)
    (out : list (HistoryEntry Patch)) (h : HistoryEntry Patch) :
  ascending history = true ->
  nth_error history (List.length history - 1) = Some h ->
  collapseHistory env history text options diff patch = Returned out ->
  exists front o, out = front ++ [o] /\ timestamp o = timestamp h
                  /\ editorVersion o = editorVersion h.
Proof.
  intros Hasc Hlast. unfold collapseHistory.
  destruct (maxTimeOf history options) as [hi| |]; simpl; try discriminate.
  now apply last_run.
Qed.

Lemma collapseHistory_keeps_newest_stamp_witness :
  exists front o, windowCollapsed = front ++ [o]
                  /\ timestamp o
                     = timestamp (editOf 400 "1.0.0" "a.ts" "c5"%string)
                  /\ editorVersion o
                     = editorVersion (editOf 400 "1.0.0" "a.ts" "c5"%string).
Proof.
  apply (collapseHistory_keeps_newest_stamp someEnv windowLog windowText
           windowOptions targetText replaceWith windowCollapsed
           (editOf 400 "1.0.0" "a.ts" "c5"%string));
    reflexivity.
Defined.

(** X12.  A log with non-decreasing timestamps in which no two adjacent
    records that both lie in the window are within [interval] of each
    other is returned as it is: records outside the window may be as close
    together as they like. *)
Theorem collapseHistory_nothing_to_merge {Patch : Type} (env : Ambient)
    (history : list (HistoryEntry Patch)) (text : ScriptText)
    (options : CollapseHistoryOptions) (diff : string -> string -> Patch)
    (patch : Patch -> option string -> string) (hi : Z) :
  ascending history = true ->
  maxTimeOf history options = Returned hi ->
  neighbours (bucketApart (interval options) (minTimeOf options) hi) history
  = true ->
  collapseHistory env history text options diff patch = Returned history.
Proof.
  intros Hasc Hmax Hapart. unfold collapseHistory. rewrite Hmax. simpl.
  now apply apart_run.
Qed.

Lemma collapseHistory_nothing_to_merge_witness :
  collapseHistory someEnv windowCollapsed windowText windowOptions
    targetText replaceWith
  = Returned windowCollapsed.
Proof.
  apply (collapseHistory_nothing_to_merge someEnv windowCollapsed windowText
           windowOptions targetText replaceWith 300); reflexivity.
Defined.

(** X13.  Idempotence.  When [collapseHistory] returns a log for a log
    with non-decreasing timestamps, [collapseHistory] with the same options
    returns that log unchanged, whatever the snapshot it is given. *)
Theorem collapseHistory_idempotent {Patch : Type} (env : Ambient)
    (history : list (HistoryEntry Patch)) (text text' : ScriptText)
    (options : CollapseHistoryOptions) (diff : string -> string -> Patch)
    (patch : Patch -> option string -> string)
    (out : list (HistoryEntry Patch)) :
  ascending history = true ->
  collapseHistory env history text options diff patch = Returned out ->
  collapseHistory env out text' options diff patch = Returned out.
Proof.
  intros Hasc Hrun. unfold collapseHistory in Hrun |- *.
  destruct (maxTimeOf history options) as [hi| |] eqn:Hmax; simpl in Hrun;
    try discriminate.
  assert (Hmax' : maxTimeOf out options = Returned hi).
  { unfold maxTimeOf in Hmax |- *.
    destruct (maxTime options) as [t|]; [exact Hmax|].
    destruct (nth_error history (List.length history - 1)) as [h|] eqn:Hlast.
    - assert (Hhi : hi = timestamp h).
      { destruct history; [discriminate | now inversion Hmax]. }
      destruct (last_run env history diff patch (interval options)
                  (minTimeOf options) hi text out h Hasc Hlast Hrun)
        as [front [o [-> [Ht _]]]].
      rewrite nth_error_last_app.
      destruct (front ++ [o]) eqn:Hout.
      + destruct front; discriminate.
      + now rewrite Ht, Hhi.
    - destruct history; discriminate. }
  rewrite Hmax'. simpl. apply apart_run.
  - eapply ascending_run; eauto.
  - eapply bucket_run; eauto.
Qed.

Lemma collapseHistory_idempotent_witness :
  collapseHistory someEnv windowCollapsed [] windowOptions
    targetText replaceWith
  = Returned windowCollapsed.
Proof.
  apply (collapseHistory_idempotent someEnv windowLog windowText []
           windowOptions targetText replaceWith windowCollapsed);
    reflexivity.
Defined.

(** X14.  Snapshots at checkpoints.  For a log with non-decreasing
    timestamps and callbacks with [patch(diff(a, b), a) = b], rolling the
    current snapshot back with [applyDiff] through all records that
    [collapseHistory] returned leads, on every tracked file, to the snapshot
    that rolling it back through the whole log leads to; and rolling it back
    through the newest records of the output, however many, leads on every
    tracked file to a snapshot that the log itself leads to. *)
Theorem collapseHistory_same_snapshots {Patch : Type} (env : Ambient)
    (history : list (HistoryEntry Patch)) (text : ScriptText)
    (options : CollapseHistoryOptions) (diff : string -> string -> Patch)
    (patch : Patch -> option string -> string)
    (out : list (HistoryEntry Patch)) :
  ascending history = true ->
  wellFormed text ->
  (forall a b, patch (diff a b) (Some a) = b) ->
  collapseHistory env history text options diff patch = Returned out ->
  sameTracked (rollBack out text patch) (rollBack history text patch)
  /\ forall k, exists j,
       sameTracked (rollBack (skipn k out) text patch)
                   (rollBack (skipn j history) text patch).
Proof.
  intros Hasc Hwf Hround. unfold collapseHistory.
  destruct (maxTimeOf history options) as [hi| |]; simpl; try discriminate.
  now apply snapshots_run.
Qed.

Lemma collapseHistory_same_snapshots_witness :
  sameTracked (rollBack windowCollapsed windowText replaceWith)
              (rollBack windowLog windowText replaceWith)
  /\ forall k, exists j,
       sameTracked (rollBack (skipn k windowCollapsed) windowText replaceWith)
                   (rollBack (skipn j windowLog) windowText replaceWith).
Proof.
  apply (collapseHistory_same_snapshots someEnv windowLog windowText
           windowOptions targetText replaceWith windowCollapsed).
  - reflexivity.
  - unfold wellFormed. simpl. constructor; [intros []|constructor].
  - reflexivity.
  - reflexivity.
Defined.

(** X15.  A log of two or more records that all lie in the window and
    within [interval] of the last one is merged into one record: it carries
    the timestamp and the editor version of the last record and the changes
    [diffScriptText] finds between the snapshot rolled back through the
    whole log and the current snapshot; when there are none, the call throws
    on [.changes]. *)
Theorem collapseHistory_one_bucket {Patch : Type} (env : Ambient)
    (history : list (HistoryEntry Patch)) (text : ScriptText)
    (options : CollapseHistoryOptions) (diff : string -> string -> Patch)
    (patch : Patch -> option string -> string) (hi : Z)
    (h : HistoryEntry Patch) :
  (2 <= List.length history)%nat ->
  nth_error history (List.length history - 1) = Some h ->
  maxTimeOf history options = Returned hi ->
  (forall e, In e history ->
             minTimeOf options <= timestamp e <= hi
             /\ timestamp h - timestamp e <= interval options) ->
  collapseHistory env history text options diff patch
  = match diffScriptText env (rollBack history text patch) text diff with
    | Some d =>
        Returned [{| timestamp := timestamp h;
                     editorVersion := editorVersion h;
                     changes := changes d |}]
    | None => Thrown (TypeError "changes")
    end.
Proof.
  intros Hlen Hlast Hmax Hall. unfold collapseHistory. rewrite Hmax. simpl.
  now apply one_bucket_run.
Qed.

Lemma collapseHistory_one_bucket_witness :
  collapseHistory someEnv sparseLog [("a.ts"%string, "c3"%string)]
    {| interval := 500; minTime := None; maxTime := None |}
    targetText replaceWith
  = Returned [editOf 200 "1.0.0" "a.ts" "c0"%string]
  /\ collapseHistory someEnv cancellingLog cancellingText cancellingOptions
       targetText replaceWith
     = Thrown (TypeError "changes").
Proof.
  split.
  - rewrite (collapseHistory_one_bucket someEnv sparseLog
               [("a.ts"%string, "c3"%string)]
               {| interval := 500; minTime := None; maxTime := None |}
               targetText replaceWith 200
               (editOf 200 "1.0.0" "a.ts" "c2"%string)).
    + reflexivity.
    + simpl. lia.
    + reflexivity.
    + reflexivity.
    + intros e [<-|[<-|[<-|[]]]]; cbv; repeat split; discriminate.
  - rewrite (collapseHistory_one_bucket someEnv cancellingLog cancellingText
               cancellingOptions targetText replaceWith 10
               (editOf 10 "1.0.0" "a.ts" (targetText "x" "y"))).
    + reflexivity.
    + simpl. lia.
    + reflexivity.
    + reflexivity.
    + intros e [<-|[<-|[]]]; cbv; repeat split; discriminate.
Defined.

(** X16.  On a log that is not empty, [collapseHistory] returns a log or
    throws on reading [.changes] of the [undefined] that [diffScriptText]
    returned, and nothing else: [history[i]] and [history[lastTimeIndex]]
    are always read inside the log. *)
Theorem collapseHistory_only_failure {Patch : Type} (env : Ambient)
    (history : list (HistoryEntry Patch)) (text : ScriptText)
    (options : CollapseHistoryOptions) (diff : string -> string -> Patch)
    (patch : Patch -> option string -> string) :
  history <> [] ->
  (exists out,
      collapseHistory env history text options diff patch = Returned out)
  \/ collapseHistory env history text options diff patch
     = Thrown (TypeError "changes").
Proof.
  intros Hne. unfold collapseHistory.
  destruct (maxTimeOf_nonempty history options Hne) as [t ->]. simpl.
  apply run_outcome.
Qed.

Lemma collapseHistory_only_failure_witness :
  (exists out,
      collapseHistory someEnv cancellingAfter cancellingText
        cancellingOptions targetText replaceWith = Returned out)
  \/ collapseHistory someEnv cancellingAfter cancellingText
       cancellingOptions targetText replaceWith
     = Thrown (TypeError "changes").
Proof.
  apply (collapseHistory_only_failure someEnv cancellingAfter cancellingText
           cancellingOptions targetText replaceWith).
  discriminate.
Defined.
